(** * Feed validator: a shallow embedding of [validate_feeds.go]

    The development follows the Go source: [validateFeed] (lines 32-150) is a
    computation in a small state monad that threads the task's clock and the
    trace of the library calls it makes; the dispatcher of [main]
    (lines 238-282) is a step relation over the pending URLs, the goroutines
    in flight and the results channel; the report (lines 285-300) is a fold
    over the collected results; the start-up of [main] (lines 153-216) and
    its exit code (lines 309-324) are functions of what the file system, the
    arguments and the environment variables give.

    Conventions.  Go [int] and [time.Duration] values are [Z]; no arithmetic
    of the program gets near the 64-bit range (the largest product is
    [2 * time.Second]).  Go strings are byte strings ([string]).  An [error]
    is represented by the text of its [Error()] method, the only thing the
    program reads from it; [nil] is [None].  Time is counted in whole
    seconds.  What the program writes to standard error and standard output
    is left out, and so are the deferred [cancel()] and [resp.Body.Close()],
    which run when [validateFeed] has its result. *)

From Stdlib Require Import ZArith List String Ascii Bool Lia Permutation.
From Stdlib Require Import DecimalString.
Import ListNotations.

Local Open Scope string_scope.
Local Open Scope Z_scope.

(** ** The Go library functions the program calls *)

Module GoStrings.

(** [strings.Contains]. *)
Fixpoint Contains (s substr : string) : bool :=
  if String.prefix substr s then true
  else match s with
       | EmptyString => false
       | String _ rest => Contains rest substr
       end.

Definition bytes (l : list nat) : string :=
  string_of_list_ascii (map ascii_of_nat l).

(** UTF-8 encodings of the runes for which [unicode.IsSpace] holds. *)
Definition space_encodings : list string :=
  map bytes
    [ [9]; [10]; [11]; [12]; [13]; [32];
      [194; 133]; [194; 160];
      [225; 154; 128];
      [226; 128; 128]; [226; 128; 129]; [226; 128; 130]; [226; 128; 131];
      [226; 128; 132]; [226; 128; 133]; [226; 128; 134]; [226; 128; 135];
      [226; 128; 136]; [226; 128; 137]; [226; 128; 138];
      [226; 128; 168]; [226; 128; 169]; [226; 128; 175];
      [226; 129; 159];
      [227; 128; 128] ]%nat.

Fixpoint drop (n : nat) (s : string) : string :=
  match n, s with
  | O, _ => s
  | S _, EmptyString => EmptyString
  | S n', String _ rest => drop n' rest
  end.

Fixpoint rev (s : string) : string :=
  match s with
  | EmptyString => EmptyString
  | String c rest => rev rest ++ String c EmptyString
  end.

(** Removes one leading rune of [encs], when there is one. *)
Fixpoint strip_one (encs : list string) (s : string) : option string :=
  match encs with
  | [] => None
  | e :: encs' =>
      if String.prefix e s then Some (drop (String.length e) s)
      else strip_one encs' s
  end.

Fixpoint trim_left (fuel : nat) (encs : list string) (s : string) : string :=
  match fuel with
  | O => s
  | S fuel' =>
      match strip_one encs s with
      | Some s' => trim_left fuel' encs s'
      | None => s
      end
  end.

(** [strings.TrimSpace]: leading, then trailing white space is removed. *)
Definition TrimSpace (s : string) : string :=
  let l := trim_left (String.length s) space_encodings s in
  rev (trim_left (String.length l) (map rev space_encodings) (rev l)).

(** [fmt.Sprintf("%d", n)]. *)
Definition itoa (n : Z) : string := NilZero.string_of_int (Z.to_int n).

End GoStrings.

Module GoTime.

(** A [time.Time] in UTC at second resolution: the seconds elapsed since
    January 1, year 1, 00:00:00.  The zero value of the Go type is that
    instant. *)
Definition Time : Type := Z.

Definition zero : Time := 0.

(** [t.Before(u)]. *)
Definition Before (t u : Time) : bool := t <? u.

Definition isLeap (year : Z) : bool :=
  (year mod 4 =? 0) && (negb (year mod 100 =? 0) || (year mod 400 =? 0)).

(** Days of the year that precede the first of [month] (1 to 12). *)
Definition daysBefore (leap : bool) (month : Z) : Z :=
  nth (Z.to_nat (month - 1))
      [0; 31; 59; 90; 120; 151; 181; 212; 243; 273; 304; 334] 0
  + (if leap && (3 <=? month) then 1 else 0).

(** Days from the epoch to January 1 of [year]. *)
Definition daysSinceEpoch (year : Z) : Z :=
  let p := year - 1 in 365 * p + p / 4 - p / 100 + p / 400.

(** [time.Date(year, month, day, hour, min, sec, 0, time.UTC)]: values out
    of range are normalised, a month below 1 borrowing from the year and a
    day past the end of its month running into the next one. *)
Definition Date (year month day hour min sec : Z) : Time :=
  let m0 := month - 1 in
  let year := year + m0 / 12 in
  let month := m0 mod 12 + 1 in
  (daysSinceEpoch year + daysBefore (isLeap year) month + (day - 1)) * 86400
  + hour * 3600 + min * 60 + sec.

(** Year and zero-based day of the year of a day count. *)
Definition yearDay (days : Z) : Z * Z :=
  let n := days / 146097 in
  let y := 400 * n in
  let d := days - 146097 * n in
  let n := d / 36524 in
  let n := n - Z.shiftr n 2 in
  let y := y + 100 * n in
  let d := d - 36524 * n in
  let n := d / 1461 in
  let y := y + 4 * n in
  let d := d - 1461 * n in
  let n := d / 365 in
  let n := n - Z.shiftr n 2 in
  let y := y + n in
  let d := d - 365 * n in
  (y + 1, d).

(** Month and day of the month of a zero-based day of the year. *)
Definition monthDay (leap : bool) (yday : Z) : Z * Z :=
  let month :=
    fold_left (fun best m => if daysBefore leap m <=? yday then m else best)
              [1; 2; 3; 4; 5; 6; 7; 8; 9; 10; 11; 12] 1 in
  (month, yday - daysBefore leap month + 1).

(** [t.AddDate(years, months, days)]. *)
Definition AddDate (t : Time) (years months days : Z) : Time :=
  let '(year, yday) := yearDay (t / 86400) in
  let '(month, day) := monthDay (isLeap year) yday in
  Date (year + years) (month + months) (day + days) 0 0 (t mod 86400).

End GoTime.

Import GoStrings.

(** ** Data model *)

Definition concurrencyLimit : Z := 60.
Definition timeoutSeconds : Z := 30.
Definition maxRetries : Z := 3.

Record ValidationResult : Type := mkResult {
  URL : string;
  Status : string;
  Message : string;
  ItemCount : Z;
  LastUpdate : GoTime.Time
}.

(** The part of [gofeed.Item] and [gofeed.Feed] the program reads; a nil
    [*time.Time] is [None]. *)
Record Item : Type := mkItem {
  PublishedParsed : option GoTime.Time
}.

Record Feed : Type := mkFeed {
  UpdatedParsed : option GoTime.Time;
  Items : list Item
}.

(** An [*http.Response]: its status code and what [io.ReadAll] on its body
    gives, the error text or the bytes. *)
Record Response : Type := mkResponse {
  StatusCode : Z;
  Body : string + string
}.

(** An [*http.Request] built by [http.NewRequestWithContext]: the URL and the
    deadline of the context it carries. *)
Record Request : Type := mkRequest {
  reqURL : string;
  reqDeadline : Z
}.

(** What one call of [client.Do] observes: the seconds it takes and either
    the error text or the response. *)
Record Exchange : Type := mkExchange {
  elapsed : Z;
  reply : string + Response
}.

(** The environment of a run: which URL texts [http.NewRequestWithContext]
    rejects (with the error text), what the k-th [client.Do] for a URL
    observes, and what [parser.Parse] makes of a body.  Nothing ties the
    exchanges to the deadline of the request: the statements below hold for
    every environment, among them those in which an exchange that runs into
    the deadline fails with the text of [context.DeadlineExceeded]. *)
Record World : Type := mkWorld {
  request_error : string -> option string;
  net : string -> Z -> Exchange;
  decode : string -> string + Feed
}.

(** ** The task monad: the clock of the goroutine and its trace *)

Inductive Event : Type :=
| EvDo (attempt start deadline : Z)
| EvSleep (seconds : Z)
| EvBodyClose
| EvReadAll
| EvParse.

Record TaskState : Type := mkTask {
  clock : Z;
  trace : list Event
}.

Definition Task (A : Type) : Type := TaskState -> A * TaskState.

Definition ret {A : Type} (a : A) : Task A := fun s => (a, s).

Definition bind {A B : Type} (m : Task A) (k : A -> Task B) : Task B :=
  fun s => let '(a, s') := m s in k a s'.

Declare Scope task_scope.
Delimit Scope task_scope with task.
Notation "x <- m ;; k" := (bind m (fun x => k))
  (at level 61, m at next level, right associativity) : task_scope.
Notation "' pat <- m ;; k" := (bind m (fun x => match x with pat => k end))
  (at level 61, pat pattern, m at next level, right associativity) : task_scope.
Notation "m ;; k" := (bind m (fun _ => k))
  (at level 61, right associativity) : task_scope.
Local Open Scope task_scope.

Definition emit (e : Event) (dt : Z) : Task unit :=
  fun s => (tt, {| clock := clock s + dt; trace := trace s ++ [e] |}).

(** [time.Now()]. *)
Definition time_Now : Task Z := fun s => (clock s, s).

(** [time.Sleep(d * time.Second)]. *)
Definition time_Sleep (seconds : Z) : Task unit := emit (EvSleep seconds) seconds.

(** [client.Do(req)], the [attempt]-th of the task: the pair [(resp, err)]. *)
Definition client_Do (w : World) (req : Request) (attempt : Z)
  : Task (option Response * option string) :=
  now <- time_Now ;;
  let x := net w (reqURL req) attempt in
  emit (EvDo attempt now (reqDeadline req)) (elapsed x) ;;
  ret match reply x with
      | inl e => (None, Some e)
      | inr r => (Some r, None)
      end.

(** [resp.Body.Close()]. *)
Definition Body_Close : Task unit := emit EvBodyClose 0.

(** [io.ReadAll(resp.Body)]. *)
Definition io_ReadAll (resp : Response) : Task (string + string) :=
  emit EvReadAll 0 ;; ret (Body resp).

(** [parser.Parse(bodyReader)]. *)
Definition parser_Parse (w : World) (body : string) : Task (string + Feed) :=
  emit EvParse 0 ;; ret (decode w body).

(** [http.NewRequestWithContext(ctx, "GET", url, nil)]. *)
Definition NewRequestWithContext (w : World) (deadline : Z) (url : string)
  : string + Request :=
  match request_error w url with
  | Some e => inl e
  | None => inr {| reqURL := url; reqDeadline := deadline |}
  end.

(** ** validateFeed *)

(** The test of lines 55 and 96. *)
Definition is_timeout (e : string) : bool :=
  Contains e "context canceled" || Contains e "context deadline exceeded".

(** How the retry loop of lines 50-92 is left: by the [return] of line 76, or
    by a [break] (or the loop condition) with the current [resp] and [err]. *)
Inductive LoopExit : Type :=
| Returned (r : ValidationResult)
| Broke (resp : option Response) (err : option string).

(** The loop [for attempt := 1; attempt <= maxRetries; attempt++].  [left] is
    the number of iterations the loop condition still allows,
    [maxRetries + 1 - attempt]; [resp], [err] and [backoff] are the variables
    of lines 46-48.  [client.Do] returns a response or an error, so that the
    last case of the [match] is never reached. *)
Fixpoint retryLoop (w : World) (url : string) (req : Request) (left : nat)
    (attempt backoff : Z) (resp : option Response) (err : option string)
  : Task LoopExit :=
  match left with
  | O => ret (Broke resp err)
  | S left' =>
      '(resp, err) <- client_Do w req attempt ;;
      match err, resp with
      | Some _, _ =>
          if attempt =? maxRetries then ret (Broke resp err)
          else
            time_Sleep backoff ;;
            retryLoop w url req left' (attempt + 1) (backoff * 2) resp err
      | None, Some r =>
          if negb (StatusCode r =? 200) then
            let errMsg := "HTTP status " ++ itoa (StatusCode r) in
            Body_Close ;;
            if (400 <=? StatusCode r) && (StatusCode r <? 500)
               && negb (StatusCode r =? 429)
            then ret (Returned (mkResult url "invalid" errMsg 0 GoTime.zero))
            else if attempt =? maxRetries then ret (Broke resp err)
            else
              time_Sleep backoff ;;
              retryLoop w url req left' (attempt + 1) (backoff * 2) resp err
          else ret (Broke resp err)
      | None, None => ret (Broke resp err)
      end
  end.

(** Lines 129-149: the result for a decoded feed. *)
Definition classify (url : string) (feed : Feed) : Task ValidationResult :=
  let ItemCount := Z.of_nat (List.length (Items feed)) in
  let LastUpdate :=
    match UpdatedParsed feed with
    | Some t => t
    | None =>
        match Items feed with
        | {| PublishedParsed := Some t |} :: _ => t
        | _ => GoTime.zero
        end
    end in
  if ItemCount =? 0 then
    ret (mkResult url "valid" "Warning: No feed items" ItemCount LastUpdate)
  else
    now <- time_Now ;;
    if GoTime.Before LastUpdate (GoTime.AddDate now 0 (-6) 0) then
      ret (mkResult url "valid"
             "Warning: Feed hasn't been updated in over 6 months"
             ItemCount LastUpdate)
    else ret (mkResult url "valid" EmptyString ItemCount LastUpdate).

(** Lines 94-127: what follows the loop when it was left by [break]. *)
Definition afterLoop (w : World) (url : string) (resp : option Response)
    (err : option string) : Task ValidationResult :=
  match err with
  | Some e =>
      if is_timeout e then
        ret (mkResult url "transient"
               ("Request timed out after " ++ itoa timeoutSeconds ++ " seconds")
               0 GoTime.zero)
      else ret (mkResult url "transient" e 0 GoTime.zero)
  | None =>
      let failed (statusCode : Z) :=
        mkResult url "transient"
          ("Failed after " ++ itoa maxRetries ++ " attempts, last status: "
           ++ itoa statusCode) 0 GoTime.zero in
      match resp with
      | None => ret (failed 0)
      | Some r =>
          if negb (StatusCode r =? 200) then ret (failed (StatusCode r))
          else
            read <- io_ReadAll r ;;
            match read with
            | inl e =>
                ret (mkResult url "transient" ("Error reading response: " ++ e)
                       0 GoTime.zero)
            | inr bodyBytes =>
                parsed <- parser_Parse w bodyBytes ;;
                match parsed with
                | inl parseErr =>
                    if Contains parseErr "EOF" || Contains parseErr "no XML"
                    then ret (mkResult url "invalid" "Not a valid feed format"
                                0 GoTime.zero)
                    else ret (mkResult url "invalid" parseErr 0 GoTime.zero)
                | inr feed => classify url feed
                end
            end
      end
  end.

(** [validateFeed(url, client, parser)], lines 32-150.  The context of line 35
    is created once, before the loop: its deadline is the clock at entry plus
    [timeoutSeconds], and the one request built from it serves every
    attempt. *)
Definition validateFeed (w : World) (url : string) : Task ValidationResult :=
  let url := TrimSpace url in
  now <- time_Now ;;
  let ctxDeadline := now + timeoutSeconds in
  match NewRequestWithContext w ctxDeadline url with
  | inl reqErr =>
      ret (mkResult url "invalid" ("Invalid URL: " ++ reqErr) 0 GoTime.zero)
  | inr req =>
      exit <- retryLoop w url req (Z.to_nat maxRetries) 1 1 None None ;;
      match exit with
      | Returned r => ret r
      | Broke resp err => afterLoop w url resp err
      end
  end.

(** A task run from a start time: its result, the time it ends and its
    trace. *)
Definition run {A : Type} (m : Task A) (start : Z) : A * TaskState :=
  m {| clock := start; trace := [] |}.

Definition result_of (w : World) (url : string) (start : Z) : ValidationResult :=
  fst (run (validateFeed w url) start).

Definition trace_of (w : World) (url : string) (start : Z) : list Event :=
  trace (snd (run (validateFeed w url) start)).

Definition end_of (w : World) (url : string) (start : Z) : Z :=
  clock (snd (run (validateFeed w url) start)).


Local Open Scope list_scope.

(** ** The dispatcher *)

(** The state of lines 238-282: the wall clock, the URLs the loop of line 243
    has not reached yet, the goroutines that hold a unit of the semaphore
    (each with its URL and the time at which it enters [validateFeed]), and
    what has been sent on [resultsChan], oldest first.  The channel has room
    for one result per URL, so no send blocks. *)
Record Dispatch : Type := mkDispatch {
  wall : Z;
  pending : list string;
  inflight : list (string * Z);
  resultsChan : list ValidationResult
}.

(** One step under the concurrency cap [cap].
    [step_go]: [sem.Acquire] returns because fewer than [cap] units are held;
    [wg.Add(1)]; the goroutine is created and enters [validateFeed] at some
    time [t], not before now.  [sem.Acquire] fails only when its context is
    done, which [context.Background()] never is, so that the [continue] of
    line 247 is not taken.
    [step_done]: a goroutine sends its result and releases its unit, no
    earlier than the end of its validation. *)
Inductive step (w : World) (cap : Z) : Dispatch -> Dispatch -> Prop :=
| step_go now u rest fl ch t :
    Z.of_nat (List.length fl) < cap ->
    now <= t ->
    step w cap (mkDispatch now (u :: rest) fl ch)
               (mkDispatch now rest (fl ++ [(u, t)]) ch)
| step_done now us fl1 u t fl2 ch :
    step w cap (mkDispatch now us (fl1 ++ (u, t) :: fl2) ch)
               (mkDispatch (Z.max now (end_of w u t)) us (fl1 ++ fl2)
                           (ch ++ [result_of w u t])).

Inductive steps (w : World) (cap : Z) : Dispatch -> Dispatch -> Prop :=
| steps_refl d : steps w cap d d
| steps_step d1 d2 d3 : step w cap d1 d2 -> steps w cap d2 d3 -> steps w cap d1 d3.

Definition initial (now : Z) (urls : list string) : Dispatch :=
  mkDispatch now urls [] [].

(** [wg.Wait()] returns: every URL was dispatched and every goroutine is
    done.  The channel is closed and the loop of line 280 collects its
    content in order. *)
Definition finished (d : Dispatch) : Prop :=
  pending d = [] /\ inflight d = [].

Definition completes (w : World) (cap now : Z) (urls : list string)
    (results : list ValidationResult) : Prop :=
  exists d, steps w cap (initial now urls) d /\ finished d
            /\ resultsChan d = results.

(** ** The report *)

Record Report : Type := mkReport {
  valid : Z;
  invalid : Z;
  transient : Z;
  warnings : Z
}.

(** The body of the loop of lines 286-300. *)
Definition tally (c : Report) (r : ValidationResult) : Report :=
  if String.eqb (Status r) "valid" then
    {| valid := valid c + 1;
       invalid := invalid c;
       transient := transient c;
       warnings := if negb (String.eqb (Message r) EmptyString)
                   then warnings c + 1 else warnings c |}
  else if String.eqb (Status r) "invalid" then
    {| valid := valid c; invalid := invalid c + 1;
       transient := transient c; warnings := warnings c |}
  else if String.eqb (Status r) "transient" then
    {| valid := valid c; invalid := invalid c;
       transient := transient c + 1; warnings := warnings c |}
  else c.

Definition report (results : list ValidationResult) : Report :=
  fold_left tally results (mkReport 0 0 0 0).

(** [total := len(results)]. *)
Definition total (results : list ValidationResult) : Z :=
  Z.of_nat (List.length results).

(** ** Vocabulary of the statements *)

Definition attempts (tr : list Event) : list Z :=
  flat_map (fun e => match e with EvDo a _ _ => [a] | _ => [] end) tr.
Definition sleeps (tr : list Event) : list Z :=
  flat_map (fun e => match e with EvSleep d => [d] | _ => [] end) tr.
Definition parses (tr : list Event) : list unit :=
  flat_map (fun e => match e with EvParse => [tt] | _ => [] end) tr.

(** The time each [client.Do] of a trace has until its deadline, counted from
    the moment it starts. *)
Definition budgets (tr : list Event) : list Z :=
  flat_map (fun e => match e with
                     | EvDo _ start deadline => [deadline - start]
                     | _ => []
                     end) tr.

(** The test of line 75. *)
Definition rejected (n : Z) : bool :=
  (400 <=? n) && (n <? 500) && negb (n =? 429).

(** The state after some events that take [dt] seconds. *)
Definition after (s : TaskState) (dt : Z) (evs : list Event) : TaskState :=
  {| clock := clock s + dt; trace := trace s ++ evs |}.

(** Every [client.Do] of the loop runs under the deadline of the one
    request. *)
Definition under_deadline (d : Z) (e : Event) : Prop :=
  match e with EvDo _ _ d' => d' = d | _ => True end.

(** Two results that differ at most in their message. *)
Definition same_verdict (r r' : ValidationResult) : Prop :=
  URL r = URL r' /\ Status r = Status r' /\ ItemCount r = ItemCount r'
  /\ LastUpdate r = LastUpdate r'.

Definition is_status (st : string) : Prop :=
  st = "valid" \/ st = "invalid" \/ st = "transient".

(** An attempt after which the loop goes on, unless it was the last one: a
    transport error, or a status that is neither 200 nor rejected. *)
Definition retried (x : Exchange) : Prop :=
  match reply x with
  | inl _ => True
  | inr r => StatusCode r <> 200 /\ rejected (StatusCode r) = false
  end.

(** What the last [client.Do] leaves in [resp] and [err]. *)
Definition carried (x : Exchange) : option Response * option string :=
  match reply x with
  | inl e => (None, Some e)
  | inr r => (Some r, None)
  end.

(** Attempt [k] is the first to be answered with status 200, by [r]. *)
Definition fetched (w : World) (u : string) (k : Z) (r : Response) : Prop :=
  1 <= k <= maxRetries
  /\ (forall j, 1 <= j < k -> retried (net w u j))
  /\ reply (net w u k) = inr r
  /\ StatusCode r = 200.

(** No attempt is answered with 200 or rejected. *)
Definition exhausted (w : World) (u : string) : Prop :=
  forall j, 1 <= j <= maxRetries -> retried (net w u j).

(** The attempt numbers [a, a+1, ...] and the waits [b, 2b, 4b, ...] of [n]
    rounds. *)
Definition numbered (a : Z) (n : nat) : list Z :=
  map (fun i => a + Z.of_nat i) (seq 0 n).

Definition backoffs (b : Z) (n : nat) : list Z :=
  map (fun i => b * 2 ^ Z.of_nat i) (seq 0 n).

(** The result of a goroutine, given its URL and the time it starts. *)
Definition outcome (w : World) (g : string * Z) : ValidationResult :=
  result_of w (fst g) (snd g).

(** What a run of the dispatcher has settled so far: [sched] lists, in the
    order of the URL list, the goroutines that were created. *)
Definition accounts (w : World) (now0 : Z) (urls : list string)
    (sched : list (string * Z)) (d : Dispatch) : Prop :=
  map fst sched ++ pending d = urls
  /\ Permutation (map (outcome w) sched)
                 (resultsChan d ++ map (outcome w) (inflight d))
  /\ Forall (fun g => now0 <= snd g) sched
  /\ now0 <= wall d.

(** Each step brings the run closer to its end. *)
Definition todo (d : Dispatch) : nat :=
  2 * List.length (pending d) + List.length (inflight d).

(** The number of results with a given status. *)
Definition with_status (st : string) (rs : list ValidationResult) : Z :=
  Z.of_nat (count_occ string_dec (map Status rs) st).

(** The classification of a result: which URL, which status. *)
Definition verdict (r : ValidationResult) : string * string :=
  (URL r, Status r).

(** One validation after the other, each entered when the one before has
    ended, which is as early as a cap of 1 lets it be entered. *)
Fixpoint one_by_one (w : World) (now : Z) (urls : list string)
  : list ValidationResult :=
  match urls with
  | [] => []
  | u :: rest =>
      result_of w u now :: one_by_one w (Z.max now (end_of w u now)) rest
  end.

(** All validations entered at once, at the start of the run. *)
Definition all_at_once (w : World) (now : Z) (urls : list string)
  : list ValidationResult :=
  map (fun u => result_of w u now) urls.

(** ** An example environment *)

Module Sample.

Definition answer (status : Z) (body : string + string) (secs : Z) : Exchange :=
  {| elapsed := secs; reply := inr {| StatusCode := status; Body := body |} |}.

Definition failure (text : string) (secs : Z) : Exchange :=
  {| elapsed := secs; reply := inl text |}.

Definition fresh : GoTime.Time := GoTime.Date 2026 10 1 8 0 0.

(** Two seconds after the instant that lies six months before [noon]. *)
Definition aging : GoTime.Time := GoTime.Date 2026 4 15 12 0 2.

Definition world : World := {|
  request_error := fun u =>
    if String.eqb u "http://bad url" then Some "invalid character in host name"
    else None;
  net := fun u k =>
    if String.eqb u "http://gone.example/rss" then
      answer 404 (inr EmptyString) 1
    else if String.eqb u "http://down.example/rss" then
      answer 503 (inr EmptyString) 1
    else if String.eqb u "http://flaky.example/rss" then
      if k <? 3 then answer 503 (inr EmptyString) 1
      else answer 200 (inr "<rss>news</rss>") 1
    else if String.eqb u "http://slow.example/rss" then
      failure "Get http://slow.example/rss: context deadline exceeded"
              (if k =? 1 then 30 else 0)
    else if String.eqb u "http://nohost.example/rss" then
      failure "dial tcp: lookup nohost.example: no such host" 1
    else if String.eqb u "http://cut.example/rss" then
      answer 200 (inl "unexpected EOF") 1
    else if String.eqb u "http://html.example/" then answer 200 (inr "<html>") 1
    else if String.eqb u "http://blank.example/" then
      answer 200 (inr EmptyString) 1
    else if String.eqb u "http://undated.example/rss" then
      answer 200 (inr "<rss>undated</rss>") 1
    else if String.eqb u "http://aging.example/rss" then
      answer 200 (inr "<rss>aging</rss>") 1
    else answer 200 (inr "<rss>news</rss>") 1;
  decode := fun body =>
    if String.eqb body EmptyString then inl "EOF"
    else if String.eqb body "<html>" then inl "Failed to detect feed type"
    else if String.eqb body "<rss>undated</rss>" then
      inr {| UpdatedParsed := None;
             Items := [ {| PublishedParsed := None |} ] |}
    else if String.eqb body "<rss>aging</rss>" then
      inr {| UpdatedParsed := Some aging;
             Items := [ {| PublishedParsed := None |} ] |}
    else inr {| UpdatedParsed := Some fresh;
                Items := [ {| PublishedParsed := None |} ] |}
|}.

(** The clock when the run starts: October 15, 2026, noon. *)
Definition noon : Z := GoTime.Date 2026 10 15 12 0 0.


Definition trio : list string :=
  ["http://gone.example/rss"; " http://blank.example/ ";
   "http://down.example/rss"].

End Sample.

(** ** The start-up of main and its exit code *)

(** [strings.HasPrefix]. *)
Definition HasPrefix (s prefix : string) : bool := String.prefix prefix s.

(** What one call of [reader.Read()] gives before the end of the file: a
    record, or an error other than [io.EOF], after which the reader goes on
    with the next line.  A file is the list of its reads; [io.EOF] comes
    when the list is used up. *)
Inductive Read : Type :=
| Row (record : list string)
| Bad (err : string).

(** The loop of lines 191-211 over the reads the file gives until [io.EOF],
    with the variables [urls] and [lineNum]. *)
Fixpoint readLoop (reads : list Read) (urls : list string) (lineNum : Z)
  : list string * Z :=
  match reads with
  | [] => (urls, lineNum)
  | Bad _ :: rest => readLoop rest urls (lineNum + 1)
  | Row [] :: rest => readLoop rest urls (lineNum + 1)
  | Row (url :: _) :: rest =>
      if negb (String.eqb url EmptyString) && negb (HasPrefix url "#")
      then readLoop rest (urls ++ [url]) (lineNum + 1)
      else readLoop rest urls (lineNum + 1)
  end.

(** How [main] gets to the dispatcher, lines 153-216: it leaves with an exit
    code, or it has the URLs to validate. *)
Inductive Startup : Type :=
| Exit (code : Z)
| Validate (urls : list string).

(** [inputFile], lines 153-156. *)
Definition inputFile (args : list string) : string :=
  match args with
  | _ :: file :: _ => file
  | _ => "feeds.csv"
  end.

(** [hasHeader], lines 171-175. *)
Definition hasHeader (args : list string) : bool :=
  match args with
  | _ :: _ :: flag :: _ => negb (String.eqb flag "--no-header")
  | _ => true
  end.

(** Lines 153-216.  [fs] is the file system as the CSV reader shows it: for
    a path, the error of [os.Open] or the reads the file gives. *)
Definition startup (fs : string -> string + list Read) (args : list string)
  : Startup :=
  match fs (inputFile args) with
  | inl _ => Exit 1
  | inr reads =>
      let collect (reads : list Read) (lineNum : Z) : Startup :=
        let urls := fst (readLoop reads [] lineNum) in
        if Nat.eqb (List.length urls) 0 then Exit 0 else Validate urls in
      if hasHeader args then
        match reads with
        | Row _ :: rest => collect rest 2
        | _ => Exit 1
        end
      else collect reads 1
  end.

(** The exit code of lines 309-324; [getenv] is [os.Getenv]. *)
Definition exitCode (getenv : string -> string) (c : Report) : Z :=
  let exitCode := 0 in
  let exitCode :=
    if 0 <? invalid c then
      if String.eqb (getenv "IGNORE_INVALID_FEEDS") "true" then 0 else 1
    else exitCode in
  if (0 <? transient c) && String.eqb (getenv "FAIL_ON_TRANSIENT") "true"
  then 1
  else exitCode.

(** A run of [main] from its arguments to its exit code. *)
Definition exits (w : World) (fs : string -> string + list Read)
    (getenv : string -> string) (args : list string) (now code : Z) : Prop :=
  match startup fs args with
  | Exit c => code = c
  | Validate urls =>
      exists results,
        completes w concurrencyLimit now urls results
        /\ code = exitCode getenv (report results)
  end.

(** ** Further vocabulary of the statements *)

(** The sum of a list of durations. *)
Definition sumZ (l : list Z) : Z := fold_right Z.add 0 l.


(** Attempt [k] is the first to be answered with a status the loop does not
    retry, by [r]. *)
Definition rejected_at (w : World) (u : string) (k : Z) (r : Response) : Prop :=
  1 <= k <= maxRetries
  /\ (forall j, 1 <= j < k -> retried (net w u j))
  /\ reply (net w u k) = inr r
  /\ rejected (StatusCode r) = true.

(** The calls of a trace that touch the body of a response. *)
Definition body_calls (tr : list Event) : list Event :=
  filter (fun e => match e with EvReadAll | EvParse => true | _ => false end) tr.

(** The validations of [sched] run back to back from [now] on: each is
    entered no earlier than the one before it has ended. *)
Fixpoint back_to_back (w : World) (now : Z) (sched : list (string * Z)) : Prop :=
  match sched with
  | [] => True
  | g :: rest =>
      now <= snd g /\ back_to_back w (end_of w (fst g) (snd g)) rest
  end.

(** The time the last validation of [sched] ends, or [now] when there is
    none. *)
Fixpoint finish (w : World) (now : Z) (sched : list (string * Z)) : Z :=
  match sched with
  | [] => now
  | g :: rest => finish w (end_of w (fst g) (snd g)) rest
  end.

(** What a run under cap 1 has settled so far: the goroutines that are done,
    in the order of the URL list, and after them the one in flight. *)
Definition in_turn (w : World) (now0 : Z) (urls : list string)
    (done : list (string * Z)) (d : Dispatch) : Prop :=
  back_to_back w now0 (done ++ inflight d)
  /\ map fst (done ++ inflight d) ++ pending d = urls
  /\ resultsChan d = map (outcome w) done
  /\ (List.length (inflight d) <= 1)%nat
  /\ finish w now0 done <= wall d.

(** The first field of a read, when it has one. *)
Definition first_field (r : Read) : list string :=
  match r with
  | Row (url :: _) => [url]
  | _ => []
  end.

(** The test of line 207. *)
Definition kept (url : string) : bool :=
  negb (String.eqb url EmptyString) && negb (HasPrefix url "#").

(** Some URL of the list has the given status.  The status of a URL does not
    depend on the time its validation is entered ([result_of_verdict]), so
    that it is read off a validation entered at time 0. *)
Definition some_url_is (w : World) (urls : list string) (st : string) : bool :=
  existsb (fun u => String.eqb (Status (result_of w u 0)) st) urls.

(** The exit code for a list of URLs, read off their statuses. *)
Definition expected_code (w : World) (getenv : string -> string)
    (urls : list string) : Z :=
  if (some_url_is w urls "invalid"
      && negb (String.eqb (getenv "IGNORE_INVALID_FEEDS") "true"))
     || (some_url_is w urls "transient"
         && String.eqb (getenv "FAIL_ON_TRANSIENT") "true")
  then 1 else 0.

(** The reads that follow the header, when the header is there to be
    skipped; all of them under [--no-header]. *)
Definition data_rows (args : list string) (reads : list Read)
  : option (list Read) :=
  if hasHeader args then
    match reads with
    | Row _ :: rest => Some rest
    | _ => None
    end
  else Some reads.

(** The calls of [client.Do] in a trace. *)
Definition fetches (tr : list Event) : list Event :=
  filter (fun e => match e with EvDo _ _ _ => true | _ => false end) tr.

(** [n] attempts from attempt [a] on, the first at [start], each later one
    when the one before has taken its time and the back-off has passed, all
    under the one deadline. *)
Fixpoint schedule (w : World) (u : string) (deadline a b start : Z) (n : nat)
  : list Event :=
  match n with
  | O => []
  | S n' =>
      EvDo a start deadline
      :: schedule w u deadline (a + 1) (b * 2)
           (start + elapsed (net w u a) + b) n'
  end.

(** The client honours the deadline of the request: no attempt of the trace
    takes longer than what is left until the deadline when it starts, and
    an attempt that starts past the deadline takes no time. *)
Definition honoured (w : World) (u : string) (tr : list Event) : Prop :=
  forall a start d,
    In (EvDo a start d) tr -> 0 <= elapsed (net w u a) <= Z.max 0 (d - start).

(** ** More example environments *)

Module Cases.

Definition old : GoTime.Time := GoTime.Date 2025 1 1 0 0 0.

Definition world : World := {|
  request_error := fun _ => None;
  net := fun u k =>
    if String.eqb u "http://moved.example/rss" then
      if k =? 1 then Sample.answer 503 (inr EmptyString) 2
      else Sample.answer 404 (inr EmptyString) 1
    else if String.eqb u "http://mixed.example/rss" then
      if k <? 3 then Sample.failure "read tcp: connection reset by peer" 1
      else Sample.answer 502 (inr EmptyString) 1
    else if String.eqb u "http://fading.example/rss" then
      if k <? 3 then Sample.answer 500 (inr EmptyString) 1
      else Sample.failure "read tcp: connection reset by peer" 1
    else if String.eqb u "http://bare.example/rss" then
      Sample.answer 200 (inr "<rss>bare</rss>") 1
    else if String.eqb u "http://second.example/rss" then
      if k =? 1 then Sample.failure "EOF" 1
      else Sample.answer 200 (inr "<rss>items</rss>") 1
    else Sample.answer 200 (inr "<rss>items</rss>") 1;
  decode := fun body =>
    if String.eqb body "<rss>bare</rss>" then
      inr {| UpdatedParsed := Some old; Items := [] |}
    else
      inr {| UpdatedParsed := None;
             Items := [ {| PublishedParsed := Some Sample.fresh |};
                        {| PublishedParsed := Some old |} ] |}
|}.

End Cases.

Module Files.

(** A file with a header, a bad line, a comment, a blank first field and two
    URLs; an empty file; every other path cannot be opened. *)
Definition feeds : list Read :=
  [ Row ["url"; "comments"; "language"; "status"];
    Row ["http://gone.example/rss"; "Ghana"; "en"; "active"];
    Bad "record on line 3: wrong number of fields";
    Row ["# retired"; "x"];
    Row [EmptyString; "y"];
    Row [];
    Row ["http://down.example/rss"] ].

Definition fs (path : string) : string + list Read :=
  if String.eqb path "feeds.csv" then inr feeds
  else if String.eqb path "empty.csv" then inr []
  else inl "open: no such file or directory".

Definition getenv (name : string) : string :=
  if String.eqb name "FAIL_ON_TRANSIENT" then "true" else EmptyString.

End Files.

(** ** The library models on examples *)

Example TrimSpace_example :
  TrimSpace (bytes [32; 9]%nat ++ "http://a.example/x y"
             ++ bytes [194; 160; 13; 10]%nat)%string
  = "http://a.example/x y".
Proof. reflexivity. Qed.

Example Contains_example :
  Contains "Get http://a.example/: context deadline exceeded"
           "context deadline exceeded" = true
  /\ Contains "unexpected EOF" "no XML" = false.
Proof. split; reflexivity. Qed.

Example itoa_example : itoa 404 = "404" /\ itoa 0 = "0" /\ itoa (-7) = "-7".
Proof. repeat split. Qed.

(** January 1, 1970 is day 719162 of the calendar. *)
Example Date_unix_epoch : GoTime.Date 1970 1 1 0 0 0 = 719162 * 86400.
Proof. reflexivity. Qed.

Example AddDate_six_months_back :
  GoTime.AddDate (GoTime.Date 2026 10 15 12 0 7) 0 (-6) 0
  = GoTime.Date 2026 4 15 12 0 7.
Proof. reflexivity. Qed.

(** February 31 is normalised to March 3, and the year is borrowed from. *)
Example AddDate_normalises :
  GoTime.AddDate (GoTime.Date 2026 8 31 0 0 0) 0 (-6) 0 = GoTime.Date 2026 3 3 0 0 0
  /\ GoTime.AddDate (GoTime.Date 2026 3 15 0 0 0) 0 (-6) 0
     = GoTime.Date 2025 9 15 0 0 0.
Proof. split; reflexivity. Qed.

(** ** Facts about the retry loop *)

Section Loop.
Variables (w : World) (url : string) (req : Request).

(** One round of the loop whose [client.Do] fails. *)
Lemma retryLoop_error left a b resp err s e :
  reply (net w (reqURL req) a) = inl e ->
  retryLoop w url req (S left) a b resp err s =
    let dt := elapsed (net w (reqURL req) a) in
    let ev := EvDo a (clock s) (reqDeadline req) in
    if a =? maxRetries
    then (Broke None (Some e), after s dt [ev])
    else retryLoop w url req left (a + 1) (b * 2) None (Some e)
           (after s (dt + b) [ev; EvSleep b]).
Proof.
  intros H. cbn. unfold bind, client_Do, bind, time_Now, emit, ret. cbn.
  rewrite H. cbn.
  destruct (a =? maxRetries); unfold after; cbn;
    rewrite <- ?app_assoc, ?Z.add_assoc; reflexivity.
Qed.

(** One round of the loop whose [client.Do] is answered. *)
Lemma retryLoop_status left a b resp err s r :
  reply (net w (reqURL req) a) = inr r ->
  retryLoop w url req (S left) a b resp err s =
    let dt := elapsed (net w (reqURL req) a) in
    let ev := EvDo a (clock s) (reqDeadline req) in
    if StatusCode r =? 200
    then (Broke (Some r) None, after s dt [ev])
    else if rejected (StatusCode r)
    then (Returned (mkResult url "invalid"
                      ("HTTP status " ++ itoa (StatusCode r))%string
                      0 GoTime.zero),
          after s dt [ev; EvBodyClose])
    else if a =? maxRetries
    then (Broke (Some r) None, after s dt [ev; EvBodyClose])
    else retryLoop w url req left (a + 1) (b * 2) (Some r) None
           (after s (dt + b) [ev; EvBodyClose; EvSleep b]).
Proof.
  intros H. cbn. unfold bind, client_Do, bind, time_Now, emit, ret. cbn.
  rewrite H. cbn. unfold rejected.
  destruct (StatusCode r =? 200); cbn; [unfold after; reflexivity|].
  unfold Body_Close, emit, bind. cbn.
  destruct ((400 <=? StatusCode r) && (StatusCode r <? 500)
            && negb (StatusCode r =? 429)); cbn.
  - unfold after; cbn. rewrite <- ?app_assoc, ?Z.add_0_r. reflexivity.
  - destruct (a =? maxRetries); unfold after, time_Sleep, emit, ret; cbn;
    rewrite <- ?app_assoc, ?Z.add_0_r, ?Z.add_assoc; reflexivity.
Qed.

End Loop.

(** The verdict of the loop depends neither on the clock, nor on the
    back-off, nor on the deadline the request carries. *)
Lemma retryLoop_verdict w url req req' left :
  reqURL req = reqURL req' ->
  forall a b b' resp err s s',
    fst (retryLoop w url req left a b resp err s)
    = fst (retryLoop w url req' left a b' resp err s').
Proof.
  intros Hu. induction left as [|left IH]; intros; [reflexivity|].
  destruct (reply (net w (reqURL req) a)) as [e|r] eqn:E.
  - rewrite (retryLoop_error _ _ _ _ _ _ _ _ _ _ E).
    rewrite Hu in E. rewrite (retryLoop_error _ _ _ _ _ _ _ _ _ _ E).
    destruct (a =? maxRetries); [reflexivity|apply IH].
  - rewrite (retryLoop_status _ _ _ _ _ _ _ _ _ _ E).
    rewrite Hu in E. rewrite (retryLoop_status _ _ _ _ _ _ _ _ _ _ E).
    destruct (StatusCode r =? 200); [reflexivity|].
    destruct (rejected (StatusCode r)); [reflexivity|].
    destruct (a =? maxRetries); [reflexivity|apply IH].
Qed.

(** The events of the loop keep to the deadline of the request. *)
Lemma retryLoop_deadline w url req left :
  forall a b resp err s,
    Forall (under_deadline (reqDeadline req)) (trace s) ->
    Forall (under_deadline (reqDeadline req))
           (trace (snd (retryLoop w url req left a b resp err s))).
Proof.
  induction left as [|left IH]; intros a b resp err s Hs; [exact Hs|].
  assert (Hext : forall dt evs, Forall (under_deadline (reqDeadline req)) evs ->
            Forall (under_deadline (reqDeadline req)) (trace (after s dt evs))).
  { intros dt evs He. cbn. apply Forall_app. split; assumption. }
  destruct (reply (net w (reqURL req) a)) as [e|r] eqn:E.
  - rewrite (retryLoop_error _ _ _ _ _ _ _ _ _ _ E).
    destruct (a =? maxRetries); [|apply IH]; apply Hext;
      repeat constructor.
  - rewrite (retryLoop_status _ _ _ _ _ _ _ _ _ _ E).
    destruct (StatusCode r =? 200); [apply Hext; repeat constructor|].
    destruct (rejected (StatusCode r)); [apply Hext; repeat constructor|].
    destruct (a =? maxRetries); [|apply IH]; apply Hext; repeat constructor.
Qed.

(** The [return] of line 76 reports the URL as invalid. *)
Lemma retryLoop_returned w url req left :
  forall a b resp err s r,
    fst (retryLoop w url req left a b resp err s) = Returned r ->
    URL r = url /\ Status r = "invalid".
Proof.
  induction left as [|left IH]; intros a b resp err s r0; [discriminate|].
  destruct (reply (net w (reqURL req) a)) as [e|r] eqn:E.
  - rewrite (retryLoop_error _ _ _ _ _ _ _ _ _ _ E).
    destruct (a =? maxRetries); [discriminate|apply IH].
  - rewrite (retryLoop_status _ _ _ _ _ _ _ _ _ _ E).
    destruct (StatusCode r =? 200); [discriminate|].
    destruct (rejected (StatusCode r)).
    + cbn. intros [= <-]. split; reflexivity.
    + destruct (a =? maxRetries); [discriminate|apply IH].
Qed.

(** ** Facts about a whole validation *)

(** [validateFeed] with the monad unfolded. *)
Lemma validateFeed_eq w url s :
  validateFeed w url s =
    let u := TrimSpace url in
    match request_error w u with
    | Some e => (mkResult u "invalid" ("Invalid URL: " ++ e)%string 0 GoTime.zero, s)
    | None =>
        let req := mkRequest u (clock s + timeoutSeconds) in
        match retryLoop w u req (Z.to_nat maxRetries) 1 1 None None s with
        | (Returned r, s1) => (r, s1)
        | (Broke resp err, s1) => afterLoop w u resp err s1
        end
    end.
Proof.
  unfold validateFeed, bind, time_Now, NewRequestWithContext, ret. cbn zeta.
  destruct (request_error w (TrimSpace url)); [reflexivity|].
  destruct (retryLoop _ _ _ _ _ _ _ _ _) as [[r|resp err] s1]; reflexivity.
Qed.

Lemma same_verdict_refl r : same_verdict r r.
Proof. repeat split. Qed.

Lemma classify_verdict url feed s s' :
  same_verdict (fst (classify url feed s)) (fst (classify url feed s')).
Proof.
  unfold classify, bind, time_Now, ret.
  destruct (Z.of_nat (List.length (Items feed)) =? 0); [apply same_verdict_refl|].
  do 2 destruct (GoTime.Before _ _); repeat split.
Qed.

Lemma afterLoop_verdict w url resp err s s' :
  same_verdict (fst (afterLoop w url resp err s))
               (fst (afterLoop w url resp err s')).
Proof.
  unfold afterLoop, bind, io_ReadAll, parser_Parse, emit, bind, ret.
  destruct err as [e|].
  { destruct (is_timeout e); apply same_verdict_refl. }
  destruct resp as [r|]; [|apply same_verdict_refl].
  destruct (negb (StatusCode r =? 200)); [apply same_verdict_refl|]. cbn.
  destruct (Body r) as [e|body]; [apply same_verdict_refl|].
  destruct (decode w body) as [pe|feed].
  - destruct (_ || _); apply same_verdict_refl.
  - apply classify_verdict.
Qed.

(** When a validation runs changes at most the message of its result. *)
Lemma result_of_verdict w url t t' :
  same_verdict (result_of w url t) (result_of w url t').
Proof.
  unfold result_of, run. rewrite !validateFeed_eq. cbn zeta.
  destruct (request_error w (TrimSpace url)); [apply same_verdict_refl|].
  set (s := {| clock := t; trace := [] |}).
  set (s' := {| clock := t'; trace := [] |}).
  pose proof (retryLoop_verdict w (TrimSpace url)
                (mkRequest (TrimSpace url) (clock s + timeoutSeconds))
                (mkRequest (TrimSpace url) (clock s' + timeoutSeconds))
                (Z.to_nat maxRetries) eq_refl 1 1 1 None None s s') as H.
  destruct (retryLoop _ _ _ _ _ _ _ _ s) as [ex s1].
  destruct (retryLoop _ _ _ _ _ _ _ _ s') as [ex' s1'].
  cbn in H. subst ex'.
  destruct ex as [r|resp err]; [apply same_verdict_refl|].
  apply afterLoop_verdict.
Qed.

Lemma classify_URL url feed s :
  URL (fst (classify url feed s)) = url
  /\ Status (fst (classify url feed s)) = "valid".
Proof.
  unfold classify, bind, time_Now, ret.
  destruct (Z.of_nat (List.length (Items feed)) =? 0); [split; reflexivity|].
  destruct (GoTime.Before _ _); split; reflexivity.
Qed.

Lemma afterLoop_URL w url resp err s :
  URL (fst (afterLoop w url resp err s)) = url
  /\ is_status (Status (fst (afterLoop w url resp err s))).
Proof.
  unfold afterLoop, bind, io_ReadAll, parser_Parse, emit, bind, ret, is_status.
  destruct err as [e|].
  { destruct (is_timeout e); cbn; auto. }
  destruct resp as [r|]; [|cbn; auto].
  destruct (negb (StatusCode r =? 200)); [cbn; auto|]. cbn.
  destruct (Body r) as [e|body]; [cbn; auto|].
  destruct (decode w body) as [pe|feed].
  - destruct (_ || _); cbn; auto.
  - match goal with
    | |- context [classify url feed ?s1] =>
        destruct (classify_URL url feed s1) as [-> ->]
    end. auto.
Qed.

(** The result of a validation carries the trimmed URL and one of the three
    statuses. *)
Lemma result_of_URL w url t :
  URL (result_of w url t) = TrimSpace url
  /\ is_status (Status (result_of w url t)).
Proof.
  unfold result_of, run. rewrite validateFeed_eq. cbn zeta.
  destruct (request_error w (TrimSpace url)); [unfold is_status; cbn; auto|].
  destruct (retryLoop _ _ _ _ _ _ _ _ _) as [ex s1] eqn:E.
  destruct ex as [r|resp err]; [|apply afterLoop_URL].
  apply (f_equal fst) in E. apply retryLoop_returned in E as [Hu Hs].
  cbn [fst]. rewrite Hu, Hs. unfold is_status; auto.
Qed.

(** ** Retried attempts *)

Lemma attempts_app tr tr' : attempts (tr ++ tr') = attempts tr ++ attempts tr'.
Proof. apply flat_map_app. Qed.

Lemma sleeps_app tr tr' : sleeps (tr ++ tr') = sleeps tr ++ sleeps tr'.
Proof. apply flat_map_app. Qed.

Lemma parses_app tr tr' : parses (tr ++ tr') = parses tr ++ parses tr'.
Proof. apply flat_map_app. Qed.

Lemma map_seq_S {A : Type} (f : nat -> A) (n : nat) :
  map f (seq 0 (S n)) = f O :: map (fun i => f (S i)) (seq 0 n).
Proof. cbn [seq map]. rewrite <- seq_shift, map_map. reflexivity. Qed.

Lemma numbered_S a n : numbered a (S n) = a :: numbered (a + 1) n.
Proof.
  unfold numbered. rewrite map_seq_S. f_equal; [lia|].
  apply map_ext. intros i. lia.
Qed.

Lemma backoffs_S b n : backoffs b (S n) = b :: backoffs (b * 2) n.
Proof.
  unfold backoffs. rewrite map_seq_S. f_equal; [cbn; lia|].
  apply map_ext. intros i. rewrite Nat2Z.inj_succ, Z.pow_succ_r by lia. lia.
Qed.

Section Retries.
Variables (w : World) (url : string) (req : Request).

(** [n] retried attempts in a row, none of them the last one allowed: the
    loop reaches attempt [a + n] with the back-off doubled [n] times. *)
Lemma retryLoop_retries n :
  forall left a b resp err s,
    (forall j, a <= j < a + Z.of_nat n -> retried (net w (reqURL req) j)) ->
    a + Z.of_nat n <= maxRetries ->
    exists resp' err' s',
      retryLoop w url req (n + S left) a b resp err s
      = retryLoop w url req (S left) (a + Z.of_nat n) (b * 2 ^ Z.of_nat n)
          resp' err' s'
      /\ attempts (trace s') = attempts (trace s) ++ numbered a n
      /\ sleeps (trace s') = sleeps (trace s) ++ backoffs b n
      /\ parses (trace s') = parses (trace s).
Proof.
  induction n as [|n IH]; intros left a b resp err s Hre Hle.
  - exists resp, err, s. cbn [Nat.add Z.of_nat].
    rewrite Z.add_0_r, Z.pow_0_r, Z.mul_1_r. cbn. rewrite !app_nil_r. auto.
  - assert (Ha : (a =? maxRetries) = false) by (apply Z.eqb_neq; lia).
    assert (Hnext : forall j, a + 1 <= j < a + 1 + Z.of_nat n ->
                      retried (net w (reqURL req) j)) by (intros; apply Hre; lia).
    assert (Hle' : a + 1 + Z.of_nat n <= maxRetries) by lia.
    pose proof (Hre a ltac:(lia)) as Hr. unfold retried in Hr.
    rewrite numbered_S, backoffs_S.
    replace (a + Z.of_nat (S n)) with (a + 1 + Z.of_nat n) by lia.
    replace (b * 2 ^ Z.of_nat (S n)) with (b * 2 * 2 ^ Z.of_nat n)
      by (rewrite Nat2Z.inj_succ, Z.pow_succ_r by lia; lia).
    cbn [Nat.add].
    destruct (reply (net w (reqURL req) a)) as [e|r] eqn:E.
    + rewrite (retryLoop_error _ _ _ _ _ _ _ _ _ _ E), Ha.
      edestruct (IH left (a + 1) (b * 2) None (Some e))
        as (resp' & err' & s' & -> & Hat & Hsl & Hpa);
        [exact Hnext|exact Hle'|].
      exists resp', err', s'. split; [reflexivity|].
      rewrite Hat, Hsl, Hpa. cbn [after trace].
      rewrite attempts_app, sleeps_app, parses_app. cbn.
      rewrite <- !app_assoc, app_nil_r. auto.
    + destruct Hr as [H200 Hrej]. apply Z.eqb_neq in H200.
      rewrite (retryLoop_status _ _ _ _ _ _ _ _ _ _ E), H200, Hrej, Ha.
      edestruct (IH left (a + 1) (b * 2) (Some r) None)
        as (resp' & err' & s' & -> & Hat & Hsl & Hpa);
        [exact Hnext|exact Hle'|].
      exists resp', err', s'. split; [reflexivity|].
      rewrite Hat, Hsl, Hpa. cbn [after trace].
      rewrite attempts_app, sleeps_app, parses_app. cbn.
      rewrite <- !app_assoc, app_nil_r. auto.
Qed.
End Retries.

(** ** How a validation leaves the loop *)

Lemma fetched_run w url t k r :
  request_error w (TrimSpace url) = None ->
  fetched w (TrimSpace url) k r ->
  exists s1,
    run (validateFeed w url) t = afterLoop w (TrimSpace url) (Some r) None s1
    /\ attempts (trace s1) = numbered 1 (Z.to_nat k)
    /\ sleeps (trace s1) = backoffs 1 (Z.to_nat k - 1)
    /\ parses (trace s1) = [].
Proof.
  intros Hreq (Hk & Hre & Hrep & H200).
  unfold run. rewrite validateFeed_eq. cbn zeta. rewrite Hreq.
  set (s := {| clock := t; trace := [] |}).
  set (req := mkRequest (TrimSpace url) (clock s + timeoutSeconds)).
  replace (Z.to_nat maxRetries)
    with (Z.to_nat (k - 1) + S (Z.to_nat (maxRetries - k)))%nat
    by (unfold maxRetries in *; lia).
  destruct (retryLoop_retries w (TrimSpace url) req (Z.to_nat (k - 1))
              (Z.to_nat (maxRetries - k)) 1 1 None None s)
    as (resp' & err' & s' & -> & Hat & Hsl & Hpa).
  { intros j Hj. apply Hre. lia. }
  { lia. }
  replace (1 + Z.of_nat (Z.to_nat (k - 1))) with k by lia.
  erewrite retryLoop_status by exact Hrep.
  rewrite H200. cbn [Z.eqb Pos.eqb].
  eexists. split; [reflexivity|]. cbn [after trace].
  rewrite attempts_app, sleeps_app, parses_app, Hat, Hsl, Hpa. cbn.
  rewrite app_nil_r.
  replace (Z.to_nat k - 1)%nat with (Z.to_nat (k - 1)) by lia.
  repeat split.
  replace (Z.to_nat k) with (Z.to_nat (k - 1) + 1)%nat by lia.
  unfold numbered. rewrite seq_app, map_app. cbn [seq map Nat.add].
  do 2 f_equal. unfold maxRetries in Hk. lia.
Qed.

Lemma exhausted_run w url t :
  request_error w (TrimSpace url) = None ->
  exhausted w (TrimSpace url) ->
  exists s1,
    run (validateFeed w url) t
    = afterLoop w (TrimSpace url)
        (fst (carried (net w (TrimSpace url) maxRetries)))
        (snd (carried (net w (TrimSpace url) maxRetries))) s1
    /\ attempts (trace s1) = [1; 2; 3]
    /\ sleeps (trace s1) = [1; 2]
    /\ parses (trace s1) = [].
Proof.
  intros Hreq Hex.
  unfold run. rewrite validateFeed_eq. cbn zeta. rewrite Hreq.
  set (s := {| clock := t; trace := [] |}).
  set (req := mkRequest (TrimSpace url) (clock s + timeoutSeconds)).
  change (Z.to_nat maxRetries) with (2 + 1)%nat.
  destruct (retryLoop_retries w (TrimSpace url) req 2 0 1 1 None None s)
    as (resp' & err' & s' & -> & Hat & Hsl & Hpa).
  { intros j Hj. apply Hex. unfold maxRetries. lia. }
  { unfold maxRetries. lia. }
  change (1 + Z.of_nat 2) with maxRetries.
  pose proof (Hex maxRetries ltac:(unfold maxRetries; lia)) as Hlast.
  unfold retried in Hlast. unfold carried.
  destruct (reply (net w (TrimSpace url) maxRetries)) as [e|r] eqn:E.
  - erewrite retryLoop_error by exact E. rewrite Z.eqb_refl.
    eexists. split; [reflexivity|]. cbn [after trace].
    rewrite attempts_app, sleeps_app, parses_app, Hat, Hsl, Hpa.
    repeat split.
  - destruct Hlast as [H200 Hrej]. apply Z.eqb_neq in H200.
    erewrite retryLoop_status by exact E. rewrite H200, Hrej, Z.eqb_refl.
    eexists. split; [reflexivity|]. cbn [after trace].
    rewrite attempts_app, sleeps_app, parses_app, Hat, Hsl, Hpa.
    repeat split.
Qed.

Lemma classify_state url feed s : snd (classify url feed s) = s.
Proof.
  unfold classify, bind, time_Now, ret.
  destruct (_ =? 0); [reflexivity|].
  destruct (GoTime.Before _ _); reflexivity.
Qed.

(** The library calls made after the loop: the body is read when the last
    response has status 200, and parsed when it was read in full. *)
Lemma afterLoop_trace w url resp err s :
  trace (snd (afterLoop w url resp err s))
  = trace s ++
    match err, resp with
    | None, Some r =>
        if StatusCode r =? 200
        then EvReadAll :: match Body r with inr _ => [EvParse] | inl _ => [] end
        else []
    | _, _ => []
    end.
Proof.
  unfold afterLoop, bind, io_ReadAll, parser_Parse, emit, bind, ret.
  destruct err as [e|].
  { destruct (is_timeout e); cbn; rewrite app_nil_r; reflexivity. }
  destruct resp as [r|]; [|cbn; rewrite app_nil_r; reflexivity].
  destruct (StatusCode r =? 200); cbn; [|rewrite app_nil_r; reflexivity].
  destruct (Body r) as [e|body]; [reflexivity|].
  destruct (decode w body) as [pe|feed].
  - destruct (_ || _); cbn; rewrite <- app_assoc; reflexivity.
  - rewrite classify_state. cbn. rewrite <- app_assoc. reflexivity.
Qed.

Lemma retryable_status n :
  n = 429 \/ 500 <= n -> n <> 200 /\ rejected n = false.
Proof.
  intros H. split; [lia|]. unfold rejected.
  destruct H as [->|H]; [reflexivity|].
  replace (n <? 500) with false by (symmetry; apply Z.ltb_ge; lia).
  rewrite andb_false_r. reflexivity.
Qed.

(** ** Verdicts of a validation *)

(** C4: a first answer with a status in [400,500) other than 429 ends the
    validation at once: status invalid, message "HTTP status N", one
    attempt, no back-off sleep. *)
Theorem client_rejection_is_final w url t r :
  request_error w (TrimSpace url) = None ->
  reply (net w (TrimSpace url) 1) = inr r ->
  400 <= StatusCode r < 500 ->
  StatusCode r <> 429 ->
  Status (result_of w url t) = "invalid"
  /\ Message (result_of w url t) = ("HTTP status " ++ itoa (StatusCode r))%string
  /\ attempts (trace_of w url t) = [1]
  /\ sleeps (trace_of w url t) = [].
Proof.
  intros Hreq Hrep Hrange H429.
  unfold result_of, trace_of, run. rewrite validateFeed_eq. cbn zeta.
  rewrite Hreq. change (Z.to_nat maxRetries) with 3%nat.
  erewrite retryLoop_status by exact Hrep.
  replace (StatusCode r =? 200) with false by (symmetry; apply Z.eqb_neq; lia).
  replace (rejected (StatusCode r)) with true.
  - cbn. auto.
  - symmetry. unfold rejected.
    rewrite !andb_true_iff, negb_true_iff, Z.leb_le, Z.ltb_lt, Z.eqb_neq. lia.
Qed.

Lemma client_rejection_is_final_witness :
  Status (result_of Sample.world " http://gone.example/rss " Sample.noon) = "invalid"
  /\ Message (result_of Sample.world " http://gone.example/rss " Sample.noon)
     = "HTTP status 404"
  /\ attempts (trace_of Sample.world " http://gone.example/rss " Sample.noon) = [1]
  /\ sleeps (trace_of Sample.world " http://gone.example/rss " Sample.noon) = [].
Proof.
  apply (client_rejection_is_final Sample.world " http://gone.example/rss "
           Sample.noon {| StatusCode := 404; Body := inr EmptyString |}).
  - reflexivity.
  - reflexivity.
  - simpl. lia.
  - simpl. lia.
Defined.

(** C5: when every attempt is answered with a retryable status (429, or 500
    and above), the validation makes exactly [maxRetries] = 3 attempts and
    ends transient with the synthetic message naming the attempt cap and the
    last status seen. *)
Theorem retryable_statuses_exhaust w url t (resp : Z -> Response) :
  request_error w (TrimSpace url) = None ->
  (forall k, 1 <= k <= maxRetries ->
     reply (net w (TrimSpace url) k) = inr (resp k)
     /\ (StatusCode (resp k) = 429 \/ 500 <= StatusCode (resp k))) ->
  Status (result_of w url t) = "transient"
  /\ Message (result_of w url t)
     = ("Failed after 3 attempts, last status: "
        ++ itoa (StatusCode (resp maxRetries)))%string
  /\ attempts (trace_of w url t) = [1; 2; 3].
Proof.
  intros Hreq Hall.
  destruct (exhausted_run w url t Hreq) as (s1 & Hrun & Hat & _).
  { intros j Hj. destruct (Hall j Hj) as [Hrep Hst]. unfold retried.
    rewrite Hrep. apply retryable_status, Hst. }
  destruct (Hall maxRetries ltac:(unfold maxRetries; lia)) as [Hrep Hst].
  apply retryable_status in Hst as [H200 _]. apply Z.eqb_neq in H200.
  unfold result_of, trace_of. rewrite Hrun, afterLoop_trace.
  unfold carried. rewrite Hrep. cbn [fst snd]. unfold afterLoop.
  rewrite H200. cbn. rewrite app_nil_r. auto.
Qed.

Lemma retryable_statuses_exhaust_witness :
  Status (result_of Sample.world "http://down.example/rss" Sample.noon) = "transient"
  /\ Message (result_of Sample.world "http://down.example/rss" Sample.noon)
     = "Failed after 3 attempts, last status: 503"
  /\ attempts (trace_of Sample.world "http://down.example/rss" Sample.noon)
     = [1; 2; 3].
Proof.
  apply (retryable_statuses_exhaust Sample.world "http://down.example/rss"
           Sample.noon (fun _ => {| StatusCode := 503; Body := inr EmptyString |})).
  - reflexivity.
  - intros k Hk. split; [reflexivity|]. simpl. lia.
Defined.



(** C7: with 503 on attempts 1 and 2 and 200 on attempt 3 the loop stops at
    the third attempt and the body goes to the decoder, so that the result is
    valid when the body decodes; the wait before retry k is 2^(k-1) seconds,
    1 and then 2, the second no shorter than the first. *)
Theorem recovers_on_third_attempt w url t r1 r2 r3 body feed :
  request_error w (TrimSpace url) = None ->
  reply (net w (TrimSpace url) 1) = inr r1 -> StatusCode r1 = 503 ->
  reply (net w (TrimSpace url) 2) = inr r2 -> StatusCode r2 = 503 ->
  reply (net w (TrimSpace url) 3) = inr r3 -> StatusCode r3 = 200 ->
  Body r3 = inr body ->
  decode w body = inr feed ->
  Status (result_of w url t) = "valid"
  /\ attempts (trace_of w url t) = [1; 2; 3]
  /\ parses (trace_of w url t) = [tt]
  /\ sleeps (trace_of w url t) = [2 ^ (1 - 1); 2 ^ (2 - 1)]
  /\ nth 0 (sleeps (trace_of w url t)) 0 <= nth 1 (sleeps (trace_of w url t)) 0.
Proof.
  intros Hreq H1 S1 H2 S2 H3 S3 Hbody Hdec.
  destruct (fetched_run w url t 3 r3 Hreq) as (s1 & Hrun & Hat & Hsl & Hpa).
  { split; [unfold maxRetries; lia|]. split; [|auto].
    intros j Hj. assert (Hj' : j = 1 \/ j = 2) by lia. unfold retried.
    destruct Hj' as [-> | ->]; [rewrite H1, S1 | rewrite H2, S2];
      split; (lia || reflexivity). }
  unfold result_of, trace_of. rewrite Hrun, afterLoop_trace.
  rewrite S3, Hbody, attempts_app, sleeps_app, parses_app, Hat, Hsl, Hpa.
  unfold afterLoop, bind, io_ReadAll, parser_Parse, emit, bind, ret.
  rewrite S3. cbn [Z.eqb Pos.eqb negb fst snd]. rewrite Hbody, Hdec.
  split; [apply classify_URL|]. repeat split; try reflexivity.
  apply Z.leb_le. reflexivity.
Qed.

Lemma recovers_on_third_attempt_witness :
  Status (result_of Sample.world "http://flaky.example/rss" Sample.noon) = "valid"
  /\ attempts (trace_of Sample.world "http://flaky.example/rss" Sample.noon)
     = [1; 2; 3]
  /\ parses (trace_of Sample.world "http://flaky.example/rss" Sample.noon) = [tt]
  /\ sleeps (trace_of Sample.world "http://flaky.example/rss" Sample.noon) = [1; 2]
  /\ nth 0 (sleeps (trace_of Sample.world "http://flaky.example/rss" Sample.noon)) 0
     <= nth 1 (sleeps (trace_of Sample.world "http://flaky.example/rss" Sample.noon)) 0.
Proof.
  apply (recovers_on_third_attempt Sample.world "http://flaky.example/rss"
           Sample.noon
           {| StatusCode := 503; Body := inr EmptyString |}
           {| StatusCode := 503; Body := inr EmptyString |}
           {| StatusCode := 200; Body := inr "<rss>news</rss>" |}
           "<rss>news</rss>"
           {| UpdatedParsed := Some Sample.fresh;
              Items := [ {| PublishedParsed := None |} ] |});
    reflexivity.
Defined.

(** C8: when the decoder fails on the body of a 200 answer the result is
    invalid; the message is "Not a valid feed format" when the decoder's
    text carries the end-of-input signal ("EOF") or the not-XML signal
    ("no XML"), and the decoder's text itself otherwise. *)
Theorem decode_failure_is_invalid w url t k r body parseErr :
  request_error w (TrimSpace url) = None ->
  fetched w (TrimSpace url) k r ->
  Body r = inr body ->
  decode w body = inl parseErr ->
  Status (result_of w url t) = "invalid"
  /\ (Contains parseErr "EOF" = true \/ Contains parseErr "no XML" = true ->
      Message (result_of w url t) = "Not a valid feed format")
  /\ (Contains parseErr "EOF" = false -> Contains parseErr "no XML" = false ->
      Message (result_of w url t) = parseErr).
Proof.
  intros Hreq Hf Hbody Hdec.
  destruct (fetched_run w url t k r Hreq Hf) as (s1 & Hrun & _).
  destruct Hf as (_ & _ & _ & H200).
  unfold result_of. rewrite Hrun.
  unfold afterLoop, bind, io_ReadAll, parser_Parse, emit, bind, ret.
  rewrite H200. cbn [Z.eqb Pos.eqb negb fst snd]. rewrite Hbody, Hdec.
  split; [destruct (_ || _); reflexivity|]. split.
  - intros [-> | ->]; rewrite ?orb_true_r; reflexivity.
  - intros -> ->. reflexivity.
Qed.

Lemma decode_failure_is_invalid_witness :
  (Status (result_of Sample.world "http://blank.example/" Sample.noon) = "invalid"
   /\ Message (result_of Sample.world "http://blank.example/" Sample.noon)
      = "Not a valid feed format")
  /\ (Status (result_of Sample.world "http://html.example/" Sample.noon) = "invalid"
      /\ Message (result_of Sample.world "http://html.example/" Sample.noon)
         = "Failed to detect feed type").
Proof.
  split.
  - destruct (decode_failure_is_invalid Sample.world "http://blank.example/"
                Sample.noon 1 {| StatusCode := 200; Body := inr EmptyString |} EmptyString "EOF")
      as (Hst & Hmsg & _).
    + reflexivity.
    + split; [unfold maxRetries; lia|]. split; [intros j Hj; lia|]. split; reflexivity.
    + reflexivity.
    + reflexivity.
    + split; [exact Hst|]. apply Hmsg. left. reflexivity.
  - destruct (decode_failure_is_invalid Sample.world "http://html.example/"
                Sample.noon 1 {| StatusCode := 200; Body := inr "<html>" |}
                "<html>" "Failed to detect feed type")
      as (Hst & _ & Hmsg).
    + reflexivity.
    + split; [unfold maxRetries; lia|]. split; [intros j Hj; lia|]. split; reflexivity.
    + reflexivity.
    + reflexivity.
    + split; [exact Hst|]. apply Hmsg; reflexivity.
Defined.

(** C10: when the body of the 200 answer cannot be read in full the result
    is transient, the message is "Error reading response: " followed by the
    text of the read error, and the decoder is not called. *)
Theorem read_failure_is_transient w url t k r e :
  request_error w (TrimSpace url) = None ->
  fetched w (TrimSpace url) k r ->
  Body r = inl e ->
  Status (result_of w url t) = "transient"
  /\ Message (result_of w url t) = ("Error reading response: " ++ e)%string
  /\ parses (trace_of w url t) = [].
Proof.
  intros Hreq Hf Hbody.
  destruct (fetched_run w url t k r Hreq Hf) as (s1 & Hrun & _ & _ & Hpa).
  destruct Hf as (_ & _ & _ & H200).
  unfold result_of, trace_of. rewrite Hrun, afterLoop_trace.
  rewrite H200, Hbody, parses_app, Hpa.
  unfold afterLoop, bind, io_ReadAll, emit, bind, ret.
  rewrite H200. cbn [Z.eqb Pos.eqb negb fst snd]. rewrite Hbody.
  repeat split.
Qed.

Lemma read_failure_is_transient_witness :
  Status (result_of Sample.world "http://cut.example/rss" Sample.noon) = "transient"
  /\ Message (result_of Sample.world "http://cut.example/rss" Sample.noon)
     = "Error reading response: unexpected EOF"
  /\ parses (trace_of Sample.world "http://cut.example/rss" Sample.noon) = [].
Proof.
  apply (read_failure_is_transient Sample.world "http://cut.example/rss"
           Sample.noon 1 {| StatusCode := 200; Body := inl "unexpected EOF" |}).
  - reflexivity.
  - split; [unfold maxRetries; lia|]. split; [intros j Hj; lia|]. split; reflexivity.
  - reflexivity.
Defined.

(** ** The deadline of the attempts *)

(** All attempts of a validation run under one deadline, [timeoutSeconds]
    after the validation was entered. *)
Lemma single_deadline w url t :
  Forall (under_deadline (t + timeoutSeconds)) (trace_of w url t).
Proof.
  unfold trace_of, run. rewrite validateFeed_eq. cbn zeta.
  destruct (request_error w (TrimSpace url)); [constructor|].
  set (s := {| clock := t; trace := [] |}).
  set (req := mkRequest (TrimSpace url) (clock s + timeoutSeconds)).
  pose proof (retryLoop_deadline w (TrimSpace url) req (Z.to_nat maxRetries)
                1 1 None None s (Forall_nil _)) as H.
  destruct (retryLoop _ _ _ _ _ _ _ _ _) as [[r|resp err] s1]; [exact H|].
  rewrite afterLoop_trace. apply Forall_app. split; [exact H|].
  destruct err; [constructor|]. destruct resp as [r|]; [|constructor].
  destruct (_ =? 200); [|constructor].
  destruct (Body r); repeat constructor.
Qed.

(** No attempt of the loop starts before the loop does, and the attempts
    after the first start at least a back-off later. *)
Lemma retryLoop_starts w url req left :
  (forall k, 0 <= elapsed (net w (reqURL req) k)) ->
  forall a b resp err s a' start d,
    0 <= b ->
    In (EvDo a' start d)
       (trace (snd (retryLoop w url req left a b resp err s))) ->
    In (EvDo a' start d) (trace s)
    \/ (a' = a /\ clock s <= start)
    \/ (a < a' /\ clock s + b <= start).
Proof.
  intros Hel. induction left as [|left IH];
    intros a b resp err s a' start d Hb Hin; [left; exact Hin|].
  pose proof (Hel a) as Ha.
  assert (Hhere : forall dt evs,
            In (EvDo a' start d)
               (trace (after s dt (EvDo a (clock s) (reqDeadline req) :: evs))) ->
            (forall e, In e evs -> e = EvBodyClose \/ e = EvSleep b) ->
            In (EvDo a' start d) (trace s) \/ (a' = a /\ clock s <= start)).
  { intros dt evs H Hevs. cbn in H. apply in_app_or in H as [H|[H|H]].
    - left. exact H.
    - injection H as <- <- <-. right. split; [reflexivity|lia].
    - apply Hevs in H as [H|H]; discriminate H. }
  assert (Hrec : forall resp' err' evs,
            In (EvDo a' start d)
               (trace (snd (retryLoop w url req left (a + 1) (b * 2) resp' err'
                  (after s (elapsed (net w (reqURL req) a) + b)
                     (EvDo a (clock s) (reqDeadline req) :: evs))))) ->
            (forall e, In e evs -> e = EvBodyClose \/ e = EvSleep b) ->
            In (EvDo a' start d) (trace s)
            \/ (a' = a /\ clock s <= start)
            \/ (a < a' /\ clock s + b <= start)).
  { intros resp' err' evs H Hevs.
    apply IH in H as [H|[[-> H]|[Hlt H]]]; [| | |lia].
    - apply Hhere in H as [H|H]; auto.
    - cbn in H. right. right. split; lia.
    - cbn in H. right. right. split; lia. }
  destruct (reply (net w (reqURL req) a)) as [e|r] eqn:E.
  - rewrite (retryLoop_error _ _ _ _ _ _ _ _ _ _ E) in Hin.
    destruct (a =? maxRetries).
    + apply Hhere in Hin as [H|H]; auto. intros e0 [].
    + eapply Hrec; [exact Hin|]. intros e0 [<-|[]]. auto.
  - rewrite (retryLoop_status _ _ _ _ _ _ _ _ _ _ E) in Hin.
    destruct (StatusCode r =? 200).
    { apply Hhere in Hin as [H|H]; auto. intros e0 []. }
    destruct (rejected (StatusCode r)).
    { apply Hhere in Hin as [H|H]; auto. intros e0 [<-|[]]. auto. }
    destruct (a =? maxRetries).
    + apply Hhere in Hin as [H|H]; auto. intros e0 [<-|[]]. auto.
    + eapply Hrec; [exact Hin|]. intros e0 [<-|[<-|[]]]; auto.
Qed.

(** Whatever the network does (in non-negative time), every attempt after
    the first is left with less than [timeoutSeconds]: the time the earlier
    attempts and the back-off sleeps took is taken from it. *)
Lemma retry_budget_is_consumed w url t a start d :
  (forall u k, 0 <= elapsed (net w u k)) ->
  In (EvDo a start d) (trace_of w url t) ->
  d = t + timeoutSeconds
  /\ (a <> 1 -> d - start < timeoutSeconds).
Proof.
  intros Hel Hin.
  pose proof (single_deadline w url t) as Hd.
  rewrite Forall_forall in Hd. specialize (Hd _ Hin). cbn in Hd.
  split; [exact Hd|]. intros Ha. subst d.
  revert Hin. unfold trace_of, run. rewrite validateFeed_eq. cbn zeta.
  destruct (request_error w (TrimSpace url)); [intros []|].
  set (s := {| clock := t; trace := [] |}).
  set (req := mkRequest (TrimSpace url) (clock s + timeoutSeconds)).
  pose proof (retryLoop_starts w (TrimSpace url) req (Z.to_nat maxRetries)
                (fun k => Hel _ k) 1 1 None None s a start
                (t + timeoutSeconds) ltac:(lia)) as H.
  destruct (retryLoop _ _ _ _ _ _ _ _ _) as [[r|resp err] s1]; cbn [snd] in H.
  - intros Hin. apply H in Hin as [[]|[[-> _]|[_ Hin]]]; [lia|cbn in Hin; lia].
  - rewrite afterLoop_trace. intros Hin. apply in_app_or in Hin as [Hin|Hin].
    + apply H in Hin as [[]|[[-> _]|[_ Hin]]]; [lia|cbn in Hin; lia].
    + exfalso. destruct err; [destruct Hin|].
      destruct resp as [r|]; [|destruct Hin]. destruct (_ =? 200); [|destruct Hin].
      destruct Hin as [Hin|Hin]; [discriminate|].
      destruct (Body r); [destruct Hin|].
      destruct Hin as [Hin|[]]; discriminate.
Qed.

(** C2 (not met by the code): the context of line 35 is created once per
    validation.  For a URL whose first attempt runs into the deadline after
    30 seconds, the second attempt starts, after the back-off of one second,
    with its deadline one second in the past and the third with it three
    seconds in the past, where the claim gives each attempt 30 seconds. *)
Theorem deadline_is_shared_by_all_attempts :
  budgets (trace_of Sample.world "http://slow.example/rss" Sample.noon)
  = [30; -1; -3]
  /\ budgets (trace_of Sample.world "http://down.example/rss" Sample.noon)
     = [30; 28; 25].
Proof. split; reflexivity. Qed.

(** ** Feeds without a timestamp *)

(** For a feed with items and neither timestamp, the zero time takes the
    place of the last update and is compared with the date six months
    back. *)
Lemma classify_undated url feed i rest s :
  UpdatedParsed feed = None ->
  Items feed = i :: rest ->
  PublishedParsed i = None ->
  Message (fst (classify url feed s))
  = if GoTime.Before GoTime.zero (GoTime.AddDate (clock s) 0 (-6) 0)
    then "Warning: Feed hasn't been updated in over 6 months"
    else EmptyString.
Proof.
  intros Hup Hit Hpub. unfold classify, bind, time_Now, ret.
  rewrite Hup, Hit. destruct i as [p]. cbn in Hpub. subst p.
  replace (Z.of_nat (List.length ({| PublishedParsed := None |} :: rest)) =? 0)
    with false by (symmetry; apply Z.eqb_neq; cbn [List.length]; lia).
  destruct (GoTime.Before _ _); reflexivity.
Qed.

(** So it is for every validation that gets such a feed: the message is the
    staleness warning as soon as the date six months back lies after the
    zero time, January 1 of year 1. *)
Lemma undated_feed_message w url t k r body feed i rest :
  request_error w (TrimSpace url) = None ->
  fetched w (TrimSpace url) k r ->
  Body r = inr body ->
  decode w body = inr feed ->
  UpdatedParsed feed = None ->
  Items feed = i :: rest ->
  PublishedParsed i = None ->
  Status (result_of w url t) = "valid"
  /\ Message (result_of w url t)
     = if GoTime.Before GoTime.zero (GoTime.AddDate (end_of w url t) 0 (-6) 0)
       then "Warning: Feed hasn't been updated in over 6 months"
       else EmptyString.
Proof.
  intros Hreq Hf Hbody Hdec Hup Hit Hpub.
  destruct (fetched_run w url t k r Hreq Hf) as (s1 & Hrun & _).
  destruct Hf as (_ & _ & _ & H200).
  unfold result_of, end_of. rewrite Hrun.
  unfold afterLoop, bind, io_ReadAll, parser_Parse, emit, bind, ret.
  rewrite H200. cbn [Z.eqb Pos.eqb negb fst snd]. rewrite Hbody, Hdec.
  rewrite classify_state. split; [apply classify_URL|].
  apply (classify_undated (TrimSpace url) feed i rest); assumption.
Qed.

(** C3 (not met by the code): a feed that has an item and no timestamp at all
    is reported valid with the staleness warning, not with an empty message;
    line 145 compares the zero time with the date six months back. *)
Theorem undated_feed_is_reported_stale :
  result_of Sample.world "http://undated.example/rss" Sample.noon
  = {| URL := "http://undated.example/rss";
       Status := "valid";
       Message := "Warning: Feed hasn't been updated in over 6 months";
       ItemCount := 1;
       LastUpdate := GoTime.zero |}.
Proof. reflexivity. Qed.

(** ** Every URL gets its result *)

Lemma steps_trans w cap d1 d2 d3 :
  steps w cap d1 d2 -> steps w cap d2 d3 -> steps w cap d1 d3.
Proof.
  induction 1 as [|d1 d2 d2' Hs _ IH]; intros H; [exact H|].
  eapply steps_step; [exact Hs|apply IH, H].
Qed.

Lemma step_accounts w cap now0 urls sched d d' :
  accounts w now0 urls sched d ->
  step w cap d d' ->
  exists sched', accounts w now0 urls sched' d'.
Proof.
  intros (Hurls & Hperm & Hsched & Hnow) Hstep.
  destruct Hstep as [now u rest fl ch t Hcap Ht | now us fl1 u t fl2 ch];
    cbn in *.
  - exists (sched ++ [(u, t)]). repeat split; cbn.
    + rewrite map_app, <- app_assoc. exact Hurls.
    + rewrite !map_app, app_assoc. apply Permutation_app_tail, Hperm.
    + apply Forall_app. split; [exact Hsched|]. repeat constructor. cbn. lia.
    + exact Hnow.
  - exists sched. repeat split; cbn.
    + exact Hurls.
    + rewrite Hperm, !map_app, <- app_assoc. cbn.
      apply Permutation_app_head. symmetry.
      apply (Permutation_middle (map (outcome w) fl1) (map (outcome w) fl2)
               (outcome w (u, t))).
    + exact Hsched.
    + lia.
Qed.

Lemma steps_accounts w cap now0 urls d d' :
  steps w cap d d' ->
  forall sched, accounts w now0 urls sched d ->
  exists sched', accounts w now0 urls sched' d'.
Proof.
  induction 1 as [d|d1 d2 d3 Hs _ IH]; intros sched Hacc.
  - exists sched. exact Hacc.
  - destruct (step_accounts _ _ _ _ _ _ _ Hacc Hs) as [sched' Hacc'].
    apply (IH sched' Hacc').
Qed.

(** The results of a complete run are, up to their order, the results of one
    validation per URL of the list, each entered at some time not before the
    run started. *)
Lemma completes_outcomes w cap now urls results :
  completes w cap now urls results ->
  exists sched,
    map fst sched = urls
    /\ Permutation results (map (outcome w) sched)
    /\ Forall (fun g => now <= snd g) sched.
Proof.
  intros (d & Hsteps & [Hpend Hfl] & Hres).
  destruct (steps_accounts w cap now urls _ _ Hsteps [])
    as (sched & Hurls & Hperm & Hsched & _).
  { repeat split; cbn; [constructor|constructor|lia]. }
  exists sched. rewrite Hpend, app_nil_r in Hurls.
  rewrite Hfl, Hres in Hperm. cbn in Hperm. rewrite app_nil_r in Hperm.
  repeat split; [exact Hurls|symmetry; exact Hperm|exact Hsched].
Qed.

Lemma step_todo w cap d d' : step w cap d d' -> (todo d' < todo d)%nat.
Proof.
  intros [now u rest fl ch t Hcap Ht | now us fl1 u t fl2 ch];
    unfold todo; cbn; rewrite !length_app; cbn; lia.
Qed.

(** With a cap of at least 1 a run that is not finished can go on. *)
Lemma progress w cap d :
  1 <= cap -> ~ finished d -> exists d', step w cap d d'.
Proof.
  intros Hcap Hnf. destruct d as [now us fl ch].
  destruct fl as [|[u t] fl].
  - destruct us as [|u us]; [exfalso; apply Hnf; split; reflexivity|].
    eexists. apply (step_go w cap now u us [] ch now); cbn; lia.
  - eexists. apply (step_done w cap now us [] u t fl ch).
Qed.

Lemma finished_dec d : {finished d} + {~ finished d}.
Proof.
  destruct d as [now [|u us] [|g fl] ch]; unfold finished; cbn;
    try (left; split; reflexivity); right; intros [H1 H2]; discriminate.
Qed.

(** From any state the run can be brought to its end. *)
Lemma can_finish w cap :
  1 <= cap -> forall d, exists d', steps w cap d d' /\ finished d'.
Proof.
  intros Hcap d.
  remember (todo d) as n eqn:Hn. revert d Hn.
  induction n as [n IH] using lt_wf_ind. intros d ->.
  destruct (finished_dec d) as [Hf|Hnf].
  - exists d. split; [constructor|exact Hf].
  - destruct (progress w cap d Hcap Hnf) as [d1 Hs].
    destruct (IH (todo d1) (step_todo _ _ _ _ Hs) d1 eq_refl) as (d' & Hss & Hf).
    exists d'. split; [eapply steps_step; eassumption|exact Hf].
Qed.

(** C1: under any cap of at least 1 the dispatcher completes: a complete run
    exists, every run can be brought to its end from wherever it stands, and
    every step brings it closer.  The results a complete run collects carry,
    as a multiset, exactly the (trimmed) URLs of the input: one result for
    each URL, none lost and none twice, whatever the status of the
    results. *)
Theorem one_result_per_url w cap now urls :
  1 <= cap ->
  (exists results, completes w cap now urls results)
  /\ (forall d, steps w cap (initial now urls) d ->
        (exists d', steps w cap d d' /\ finished d')
        /\ (forall d', step w cap d d' -> (todo d' < todo d)%nat))
  /\ (forall results, completes w cap now urls results ->
        Permutation (map URL results) (map TrimSpace urls)
        /\ List.length results = List.length urls).
Proof.
  intros Hcap. split; [|split].
  - destruct (can_finish w cap Hcap (initial now urls)) as (d & Hs & Hf).
    exists (resultsChan d), d. auto.
  - intros d _. split; [apply can_finish, Hcap|].
    intros d' Hs. apply (step_todo _ _ _ _ Hs).
  - intros results Hc.
    destruct (completes_outcomes _ _ _ _ _ Hc) as (sched & Hurls & Hperm & _).
    assert (H : Permutation (map URL results) (map TrimSpace urls)).
    { rewrite Hperm, <- Hurls, !map_map. apply Permutation_refl'.
      apply map_ext. intros g. apply result_of_URL. }
    split; [exact H|].
    apply Permutation_length in H. rewrite !length_map in H. exact H.
Qed.

(** ** The report does not depend on the order of the results *)

Lemma fold_left_perm {A B : Type} (f : A -> B -> A) :
  (forall a x y, f (f a x) y = f (f a y) x) ->
  forall l l', Permutation l l' -> forall a, fold_left f l a = fold_left f l' a.
Proof.
  intros Hcomm l l' Hp.
  induction Hp as [|x l l' _ IH|x y l|l l' l'' _ IH1 _ IH2]; intros a; cbn.
  - reflexivity.
  - apply IH.
  - rewrite Hcomm. reflexivity.
  - rewrite IH1. apply IH2.
Qed.

Lemma tally_comm c x y : tally (tally c x) y = tally (tally c y) x.
Proof.
  unfold tally.
  destruct (String.eqb (Status x) "valid"), (String.eqb (Status x) "invalid"),
    (String.eqb (Status x) "transient"), (negb (String.eqb (Message x) EmptyString));
  destruct (String.eqb (Status y) "valid"), (String.eqb (Status y) "invalid"),
    (String.eqb (Status y) "transient"), (negb (String.eqb (Message y) EmptyString));
  cbn; try reflexivity; f_equal; lia.
Qed.

Lemma report_perm rs rs' : Permutation rs rs' -> report rs = report rs'.
Proof. intros H. apply fold_left_perm; [apply tally_comm|exact H]. Qed.

Lemma tally_counts rs :
  forall c,
    valid (fold_left tally rs c) = valid c + with_status "valid" rs
    /\ invalid (fold_left tally rs c) = invalid c + with_status "invalid" rs
    /\ transient (fold_left tally rs c) = transient c + with_status "transient" rs.
Proof.
  unfold with_status.
  induction rs as [|r rs IH]; intros c; [cbn; lia|].
  cbn [fold_left map]. destruct (IH (tally c r)) as (-> & -> & ->).
  unfold tally.
  destruct (String.eqb_spec (Status r) "valid") as [E|N1].
  { rewrite E. cbn. lia. }
  destruct (String.eqb_spec (Status r) "invalid") as [E|N2].
  { rewrite E. cbn. lia. }
  destruct (String.eqb_spec (Status r) "transient") as [E|N3].
  { rewrite E. cbn. lia. }
  rewrite !count_occ_cons_neq by assumption. lia.
Qed.

(** The three status counts of the report are the numbers of results with
    each status. *)
Lemma report_counts rs :
  valid (report rs) = with_status "valid" rs
  /\ invalid (report rs) = with_status "invalid" rs
  /\ transient (report rs) = with_status "transient" rs.
Proof. apply (tally_counts rs (mkReport 0 0 0 0)). Qed.

Lemma with_status_perm st rs rs' :
  Permutation (map verdict rs) (map verdict rs') ->
  with_status st rs = with_status st rs'.
Proof.
  intros H. apply (Permutation_map snd) in H. rewrite !map_map in H. cbn in H.
  unfold with_status. f_equal.
  revert st. apply Permutation_count_occ. exact H.
Qed.

(** The classification of the results of a complete run is fixed by the URL
    list and the environment. *)
Lemma completes_verdicts w cap now urls results :
  completes w cap now urls results ->
  Permutation (map verdict results)
              (map (fun u => verdict (result_of w u 0)) urls).
Proof.
  intros Hc.
  destruct (completes_outcomes _ _ _ _ _ Hc) as (sched & Hurls & Hperm & _).
  rewrite Hperm, <- Hurls, !map_map. apply Permutation_refl'.
  apply map_ext. intros [u t]. unfold outcome, verdict. cbn.
  destruct (result_of_verdict w u t 0) as (-> & -> & _). reflexivity.
Qed.


(** ** Two schedules *)

Lemma steps_one_by_one w cap urls :
  1 <= cap ->
  forall now ch,
  exists now',
    steps w cap (mkDispatch now urls [] ch)
                (mkDispatch now' [] [] (ch ++ one_by_one w now urls)).
Proof.
  intros Hcap. induction urls as [|u rest IH]; intros now ch.
  - exists now. cbn. rewrite app_nil_r. constructor.
  - destruct (IH (Z.max now (end_of w u now)) (ch ++ [result_of w u now]))
      as [now' Hs].
    exists now'. eapply steps_step.
    { apply (step_go w cap now u rest [] ch now); cbn; lia. }
    eapply steps_step.
    { apply (step_done w cap now rest [] u now [] ch). }
    cbn [app one_by_one]. rewrite <- app_assoc in Hs. exact Hs.
Qed.

Lemma steps_go_all w cap now urls :
  forall fl ch,
    Z.of_nat (List.length fl + List.length urls) <= cap ->
    steps w cap (mkDispatch now urls fl ch)
                (mkDispatch now [] (fl ++ map (fun u => (u, now)) urls) ch).
Proof.
  induction urls as [|u rest IH]; intros fl ch Hcap.
  - cbn. rewrite app_nil_r. constructor.
  - eapply steps_step.
    { apply (step_go w cap now u rest fl ch now); cbn in *; lia. }
    cbn [map]. replace (fl ++ (u, now) :: map (fun u0 => (u0, now)) rest)
      with ((fl ++ [(u, now)]) ++ map (fun u0 => (u0, now)) rest)
      by (rewrite <- app_assoc; reflexivity).
    apply IH. rewrite length_app. cbn in *. lia.
Qed.

Lemma steps_drain w cap fl :
  forall now ch,
  exists now',
    steps w cap (mkDispatch now [] fl ch)
                (mkDispatch now' [] [] (ch ++ map (outcome w) fl)).
Proof.
  induction fl as [|[u t] fl IH]; intros now ch.
  - exists now. cbn. rewrite app_nil_r. constructor.
  - destruct (IH (Z.max now (end_of w u t)) (ch ++ [result_of w u t]))
      as [now' Hs].
    exists now'. eapply steps_step.
    { apply (step_done w cap now [] [] u t fl ch). }
    cbn [app map]. rewrite <- app_assoc in Hs. exact Hs.
Qed.

(** Under any cap of at least 1 the validations can run one by one. *)
Lemma completes_one_by_one w cap now urls :
  1 <= cap -> completes w cap now urls (one_by_one w now urls).
Proof.
  intros Hcap. destruct (steps_one_by_one w cap urls Hcap now []) as [now' Hs].
  eexists. split; [exact Hs|]. split; [split|]; reflexivity.
Qed.

(** Under a cap as large as the whole list the validations can all be
    entered at the start. *)
Lemma completes_all_at_once w cap now urls :
  Z.of_nat (List.length urls) <= cap ->
  completes w cap now urls (all_at_once w now urls).
Proof.
  intros Hcap.
  destruct (steps_drain w cap (map (fun u => (u, now)) urls) now [])
    as [now' Hs].
  eexists. split.
  - eapply steps_trans; [|exact Hs].
    apply (steps_go_all w cap now urls [] []). cbn. exact Hcap.
  - split; [split; reflexivity|]. cbn. unfold all_at_once.
    rewrite map_map. reflexivity.
Qed.

Lemma one_result_per_url_witness :
  (exists results,
     completes Sample.world concurrencyLimit Sample.noon Sample.trio results)
  /\ (forall d,
        steps Sample.world concurrencyLimit (initial Sample.noon Sample.trio) d ->
        (exists d', steps Sample.world concurrencyLimit d d' /\ finished d')
        /\ (forall d', step Sample.world concurrencyLimit d d' ->
                       (todo d' < todo d)%nat))
  /\ (forall results,
        completes Sample.world concurrencyLimit Sample.noon Sample.trio results ->
        Permutation (map URL results)
          ["http://gone.example/rss"; "http://blank.example/";
           "http://down.example/rss"]
        /\ List.length results = 3%nat).
Proof.
  apply (one_result_per_url Sample.world concurrencyLimit Sample.noon Sample.trio).
  unfold concurrencyLimit. lia.
Defined.

(** ** The concurrency cap *)




(** ** The shape of every validation *)

Lemma sumZ_app l l' : sumZ (l ++ l') = sumZ l + sumZ l'.
Proof. unfold sumZ. induction l as [|x l IH]; cbn; [reflexivity|]. lia. Qed.

Lemma afterLoop_clock w url resp err s :
  clock (snd (afterLoop w url resp err s)) = clock s.
Proof.
  unfold afterLoop, bind, io_ReadAll, parser_Parse, emit, bind, ret.
  destruct err as [e|].
  { destruct (is_timeout e); reflexivity. }
  destruct resp as [r|]; [|reflexivity].
  destruct (negb (StatusCode r =? 200)); [reflexivity|]. cbn.
  destruct (Body r) as [e|body]; [cbn; lia|].
  destruct (decode w body) as [pe|feed].
  - destruct (_ || _); cbn; lia.
  - rewrite classify_state. cbn. lia.
Qed.

(** What the rounds of the loop leave in the trace and on the clock: [n]
    attempts with consecutive numbers, a sleep between any two of them and
    none after the last. *)
Lemma retryLoop_shape w url req left :
  forall a b resp err s,
    Z.of_nat (S left) = maxRetries + 1 - a ->
    exists n,
      (1 <= n <= S left)%nat
      /\ attempts (trace (snd (retryLoop w url req (S left) a b resp err s)))
         = attempts (trace s) ++ numbered a n
      /\ sleeps (trace (snd (retryLoop w url req (S left) a b resp err s)))
         = sleeps (trace s) ++ backoffs b (n - 1)
      /\ parses (trace (snd (retryLoop w url req (S left) a b resp err s)))
         = parses (trace s)
      /\ clock (snd (retryLoop w url req (S left) a b resp err s))
         = clock s
           + sumZ (map (fun k => elapsed (net w (reqURL req) k)) (numbered a n))
           + sumZ (backoffs b (n - 1)).
Proof.
  induction left as [|left IH]; intros a b resp err s Hleft.
  - (* the last round *)
    assert (Ha : (a =? maxRetries) = true) by (apply Z.eqb_eq; lia).
    exists 1%nat. split; [lia|].
    destruct (reply (net w (reqURL req) a)) as [e|r] eqn:E.
    + rewrite (retryLoop_error _ _ _ _ _ _ _ _ _ _ E). cbn zeta. rewrite Ha.
      cbn [snd after trace clock].
      rewrite attempts_app, sleeps_app, parses_app. cbn.
      rewrite !app_nil_r, !Z.add_0_r. auto.
    + rewrite (retryLoop_status _ _ _ _ _ _ _ _ _ _ E). cbn zeta. rewrite Ha.
      destruct (StatusCode r =? 200); [|destruct (rejected (StatusCode r))];
        cbn [snd after trace clock];
        rewrite attempts_app, sleeps_app, parses_app; cbn;
        rewrite !app_nil_r, !Z.add_0_r; auto.
  - assert (Ha : (a =? maxRetries) = false) by (apply Z.eqb_neq; lia).
    assert (Hnext : Z.of_nat (S left) = maxRetries + 1 - (a + 1)) by lia.
    assert (Hone : exists n,
      (1 <= n <= S (S left))%nat
      /\ forall s1, clock s1 = clock s + elapsed (net w (reqURL req) a) ->
           attempts (trace s1) = attempts (trace s) ++ [a] ->
           sleeps (trace s1) = sleeps (trace s) ->
           parses (trace s1) = parses (trace s) ->
           attempts (trace s1) = attempts (trace s) ++ numbered a n
           /\ sleeps (trace s1) = sleeps (trace s) ++ backoffs b (n - 1)
           /\ parses (trace s1) = parses (trace s)
           /\ clock s1 = clock s
                + sumZ (map (fun k => elapsed (net w (reqURL req) k)) (numbered a n))
                + sumZ (backoffs b (n - 1))).
    { exists 1%nat. split; [lia|]. intros s1 Hc Hat Hsl Hpa. cbn.
      rewrite Hat, Hsl, Hpa, Hc, !app_nil_r, !Z.add_0_r. auto. }
    assert (Hmore : forall resp' err' s2,
      clock s2 = clock s + elapsed (net w (reqURL req) a) + b ->
      attempts (trace s2) = attempts (trace s) ++ [a] ->
      sleeps (trace s2) = sleeps (trace s) ++ [b] ->
      parses (trace s2) = parses (trace s) ->
      exists n,
        (1 <= n <= S (S left))%nat
        /\ attempts (trace (snd (retryLoop w url req (S left) (a + 1) (b * 2) resp' err' s2)))
           = attempts (trace s) ++ numbered a n
        /\ sleeps (trace (snd (retryLoop w url req (S left) (a + 1) (b * 2) resp' err' s2)))
           = sleeps (trace s) ++ backoffs b (n - 1)
        /\ parses (trace (snd (retryLoop w url req (S left) (a + 1) (b * 2) resp' err' s2)))
           = parses (trace s)
        /\ clock (snd (retryLoop w url req (S left) (a + 1) (b * 2) resp' err' s2))
           = clock s
             + sumZ (map (fun k => elapsed (net w (reqURL req) k)) (numbered a n))
             + sumZ (backoffs b (n - 1))).
    { intros resp' err' s2 Hc Hat Hsl Hpa.
      destruct (IH (a + 1) (b * 2) resp' err' s2 Hnext)
        as (n & Hn & Hat' & Hsl' & Hpa' & Hc').
      exists (S n). split; [lia|].
      rewrite Hat', Hsl', Hpa', Hc', Hat, Hsl, Hpa, Hc.
      replace (S n - 1)%nat with (S (n - 1)) by lia.
      rewrite numbered_S, backoffs_S. cbn [map sumZ fold_right].
      rewrite <- !app_assoc. cbn [app]. repeat split.
      unfold sumZ. lia. }
    destruct (reply (net w (reqURL req) a)) as [e|r] eqn:E.
    + rewrite (retryLoop_error _ _ _ _ _ _ _ _ _ _ E). cbn zeta. rewrite Ha.
      apply Hmore; cbn [after trace clock];
        rewrite ?attempts_app, ?sleeps_app, ?parses_app; cbn;
        rewrite ?app_nil_r; auto; lia.
    + rewrite (retryLoop_status _ _ _ _ _ _ _ _ _ _ E). cbn zeta. rewrite Ha.
      destruct Hone as (n1 & Hn1 & Hone).
      destruct (StatusCode r =? 200); [|destruct (rejected (StatusCode r))].
      * exists n1. split; [exact Hn1|]. apply Hone; cbn [snd after trace clock];
          rewrite ?attempts_app, ?sleeps_app, ?parses_app; cbn;
          rewrite ?app_nil_r; auto.
      * exists n1. split; [exact Hn1|]. apply Hone; cbn [snd after trace clock];
          rewrite ?attempts_app, ?sleeps_app, ?parses_app; cbn;
          rewrite ?app_nil_r; auto.
      * apply Hmore; cbn [after trace clock];
          rewrite ?attempts_app, ?sleeps_app, ?parses_app; cbn;
          rewrite ?app_nil_r; auto; lia.
Qed.

(** What follows the loop neither fetches nor sleeps. *)
Lemma afterLoop_quiet w url resp err s :
  attempts (trace (snd (afterLoop w url resp err s))) = attempts (trace s)
  /\ sleeps (trace (snd (afterLoop w url resp err s))) = sleeps (trace s).
Proof.
  rewrite afterLoop_trace, attempts_app, sleeps_app.
  destruct err; [cbn; rewrite !app_nil_r; auto|].
  destruct resp as [r|]; [|cbn; rewrite !app_nil_r; auto].
  destruct (_ =? 200); [|cbn; rewrite !app_nil_r; auto].
  destruct (Body r); cbn; rewrite !app_nil_r; auto.
Qed.

Lemma malformed_run w url t e :
  request_error w (TrimSpace url) = Some e ->
  run (validateFeed w url) t
  = (mkResult (TrimSpace url) "invalid" ("Invalid URL: " ++ e)%string 0 GoTime.zero,
     {| clock := t; trace := [] |}).
Proof.
  intros Hreq. unfold run. rewrite validateFeed_eq. cbn zeta. rewrite Hreq.
  reflexivity.
Qed.

(** A validation whose request could be built: the trace and the clock at
    its end. *)
Lemma validation_shape w url t :
  request_error w (TrimSpace url) = None ->
  exists n,
    (1 <= n <= 3)%nat
    /\ attempts (trace_of w url t) = numbered 1 n
    /\ sleeps (trace_of w url t) = backoffs 1 (n - 1)
    /\ end_of w url t
       = t + sumZ (map (fun k => elapsed (net w (TrimSpace url) k)) (numbered 1 n))
           + sumZ (backoffs 1 (n - 1)).
Proof.
  intros Hreq. unfold trace_of, end_of, run. rewrite validateFeed_eq. cbn zeta.
  rewrite Hreq.
  set (s := {| clock := t; trace := [] |}).
  set (req := mkRequest (TrimSpace url) (clock s + timeoutSeconds)).
  change (Z.to_nat maxRetries) with 3%nat.
  destruct (retryLoop_shape w (TrimSpace url) req 2 1 1 None None s eq_refl)
    as (n & Hn & Hat & Hsl & _ & Hc).
  exists n. split; [exact Hn|].
  destruct (retryLoop _ _ _ _ _ _ _ _ _) as [[r|resp err] s1];
    cbn [snd] in *; [auto|].
  destruct (afterLoop_quiet w (TrimSpace url) resp err s1) as [-> ->].
  rewrite afterLoop_clock. auto.
Qed.

(** ** Extra properties of a validation *)

(** X1: a URL text from which no request can be built is reported invalid,
    with the text of the error after "Invalid URL: "; no call of the
    network, the body reader or the decoder is made and no time passes. *)
Theorem malformed_url_makes_no_request w url t e :
  request_error w (TrimSpace url) = Some e ->
  result_of w url t
  = mkResult (TrimSpace url) "invalid" ("Invalid URL: " ++ e)%string 0 GoTime.zero
  /\ trace_of w url t = []
  /\ end_of w url t = t.
Proof.
  intros Hreq. unfold result_of, trace_of, end_of.
  rewrite (malformed_run w url t e Hreq). auto.
Qed.

Lemma malformed_url_makes_no_request_witness :
  result_of Sample.world " http://bad url" Sample.noon
  = mkResult "http://bad url" "invalid"
      "Invalid URL: invalid character in host name" 0 GoTime.zero
  /\ trace_of Sample.world " http://bad url" Sample.noon = []
  /\ end_of Sample.world " http://bad url" Sample.noon = Sample.noon.
Proof.
  apply (malformed_url_makes_no_request Sample.world " http://bad url"
           Sample.noon "invalid character in host name").
  reflexivity.
Defined.

(** X2: whatever the network does, a validation makes at most three
    attempts, numbered 1, 2, ... without a gap, and none at all exactly when
    the request could not be built; it sleeps one time less than it makes
    attempts, for 1 second and then for 2. *)
Theorem attempts_and_sleeps_alternate w url t :
  exists n,
    (n <= 3)%nat
    /\ attempts (trace_of w url t) = numbered 1 n
    /\ sleeps (trace_of w url t) = backoffs 1 (n - 1)
    /\ (n = 0%nat <-> request_error w (TrimSpace url) <> None).
Proof.
  destruct (request_error w (TrimSpace url)) as [e|] eqn:Hreq.
  - exists 0%nat. unfold trace_of. rewrite (malformed_run w url t e Hreq).
    repeat split; [lia|discriminate].
  - destruct (validation_shape w url t Hreq) as (n & Hn & Hat & Hsl & _).
    exists n. repeat split; try assumption; try lia.
    intros H. exfalso. apply H. reflexivity.
Qed.


(** ** The three ways out of the loop *)

Lemma body_calls_app tr tr' :
  body_calls (tr ++ tr') = body_calls tr ++ body_calls tr'.
Proof. apply filter_app. Qed.

(** The loop itself never reads a body and never calls the decoder. *)
Lemma retryLoop_body_calls w url req left :
  forall a b resp err s,
    body_calls (trace (snd (retryLoop w url req left a b resp err s)))
    = body_calls (trace s).
Proof.
  induction left as [|left IH]; intros a b resp err s; [reflexivity|].
  assert (Hext : forall dt evs, body_calls evs = [] ->
            body_calls (trace (after s dt evs)) = body_calls (trace s)).
  { intros dt evs He. cbn. rewrite body_calls_app, He, app_nil_r. reflexivity. }
  destruct (reply (net w (reqURL req) a)) as [e|r] eqn:E.
  - rewrite (retryLoop_error _ _ _ _ _ _ _ _ _ _ E). cbn zeta.
    destruct (a =? maxRetries); [|rewrite IH]; apply Hext; reflexivity.
  - rewrite (retryLoop_status _ _ _ _ _ _ _ _ _ _ E). cbn zeta.
    destruct (StatusCode r =? 200); [apply Hext; reflexivity|].
    destruct (rejected (StatusCode r)); [apply Hext; reflexivity|].
    destruct (a =? maxRetries); [|rewrite IH]; apply Hext; reflexivity.
Qed.

Lemma rejected_not_200 n : rejected n = true -> (n =? 200) = false.
Proof.
  intros H. apply Z.eqb_neq. intros E. rewrite E in H. discriminate.
Qed.

Lemma rejected_run w url t k r :
  request_error w (TrimSpace url) = None ->
  rejected_at w (TrimSpace url) k r ->
  exists s1,
    run (validateFeed w url) t
    = (mkResult (TrimSpace url) "invalid"
         ("HTTP status " ++ itoa (StatusCode r))%string 0 GoTime.zero, s1)
    /\ attempts (trace s1) = numbered 1 (Z.to_nat k)
    /\ sleeps (trace s1) = backoffs 1 (Z.to_nat k - 1).
Proof.
  intros Hreq (Hk & Hre & Hrep & Hrej).
  pose proof (rejected_not_200 _ Hrej) as H200.
  unfold run. rewrite validateFeed_eq. cbn zeta. rewrite Hreq.
  set (s := {| clock := t; trace := [] |}).
  set (req := mkRequest (TrimSpace url) (clock s + timeoutSeconds)).
  replace (Z.to_nat maxRetries)
    with (Z.to_nat (k - 1) + S (Z.to_nat (maxRetries - k)))%nat
    by (unfold maxRetries in *; lia).
  destruct (retryLoop_retries w (TrimSpace url) req (Z.to_nat (k - 1))
              (Z.to_nat (maxRetries - k)) 1 1 None None s)
    as (resp' & err' & s' & -> & Hat & Hsl & Hpa).
  { intros j Hj. apply Hre. lia. }
  { lia. }
  replace (1 + Z.of_nat (Z.to_nat (k - 1))) with k by lia.
  erewrite retryLoop_status by exact Hrep.
  cbn zeta. rewrite H200, Hrej.
  eexists. split; [reflexivity|]. cbn [after trace].
  rewrite attempts_app, sleeps_app, Hat, Hsl. cbn.
  rewrite app_nil_r.
  replace (Z.to_nat k - 1)%nat with (Z.to_nat (k - 1)) by lia.
  split; [|reflexivity].
  replace (Z.to_nat k) with (Z.to_nat (k - 1) + 1)%nat by lia.
  unfold numbered. rewrite seq_app, map_app. cbn [seq map Nat.add].
  do 2 f_equal. unfold maxRetries in Hk. lia.
Qed.

(** How an attempt is answered, as the loop sees it. *)
Lemma attempt_cases (x : Exchange) :
  retried x
  \/ (exists r, reply x = inr r /\ StatusCode r = 200)
  \/ (exists r, reply x = inr r /\ rejected (StatusCode r) = true).
Proof.
  unfold retried. destruct (reply x) as [e|r]; [left; exact I|].
  destruct (Z.eq_dec (StatusCode r) 200) as [E|N].
  { right. left. exists r. auto. }
  destruct (rejected (StatusCode r)) eqn:R.
  { right. right. exists r. auto. }
  left. auto.
Qed.

(** The attempts of a validation end in exactly one of three ways. *)
Lemma loop_cases w u :
  (exists k r, fetched w u k r)
  \/ (exists k r, rejected_at w u k r)
  \/ exhausted w u.
Proof.
  assert (Hsplit : forall k, 1 <= k <= maxRetries ->
            (forall j, 1 <= j < k -> retried (net w u j)) ->
            (forall j, 1 <= j < k + 1 -> retried (net w u j))
            \/ (exists r, fetched w u k r)
            \/ (exists r, rejected_at w u k r)).
  { intros k Hk Hbefore.
    destruct (attempt_cases (net w u k)) as [H|[(r & Hr & Hs)|(r & Hr & Hs)]].
    - left. intros j Hj. destruct (Z.eq_dec j k) as [->|N]; [exact H|].
      apply Hbefore. lia.
    - right. left. exists r. repeat split; try assumption; lia.
    - right. right. exists r. repeat split; try assumption; lia. }
  destruct (Hsplit 1) as [H1|[[r H]|[r H]]];
    [unfold maxRetries; lia|intros j Hj; lia| |eauto|eauto].
  destruct (Hsplit 2) as [H2|[[r H]|[r H]]];
    [unfold maxRetries; lia|exact H1| |eauto|eauto].
  destruct (Hsplit 3) as [H3|[[r H]|[r H]]];
    [unfold maxRetries; lia|exact H2| |eauto|eauto].
  right. right. intros j Hj. apply H3. unfold maxRetries in Hj. lia.
Qed.

(** What the loop hands on in the three cases. *)
Lemma fetched_loop w url req s k r :
  fetched w (reqURL req) k r ->
  fst (retryLoop w url req (Z.to_nat maxRetries) 1 1 None None s)
  = Broke (Some r) None.
Proof.
  intros (Hk & Hre & Hrep & H200).
  replace (Z.to_nat maxRetries)
    with (Z.to_nat (k - 1) + S (Z.to_nat (maxRetries - k)))%nat
    by (unfold maxRetries in *; lia).
  destruct (retryLoop_retries w url req (Z.to_nat (k - 1))
              (Z.to_nat (maxRetries - k)) 1 1 None None s)
    as (resp' & err' & s' & -> & _).
  { intros j Hj. apply Hre. lia. }
  { lia. }
  replace (1 + Z.of_nat (Z.to_nat (k - 1))) with k by lia.
  erewrite retryLoop_status by exact Hrep.
  cbn zeta. rewrite H200. reflexivity.
Qed.

Lemma exhausted_loop w url req s :
  exhausted w (reqURL req) ->
  fst (retryLoop w url req (Z.to_nat maxRetries) 1 1 None None s)
  = Broke (fst (carried (net w (reqURL req) maxRetries)))
          (snd (carried (net w (reqURL req) maxRetries))).
Proof.
  intros Hex. change (Z.to_nat maxRetries) with (2 + 1)%nat.
  destruct (retryLoop_retries w url req 2 0 1 1 None None s)
    as (resp' & err' & s' & -> & _).
  { intros j Hj. apply Hex. unfold maxRetries. lia. }
  { unfold maxRetries. lia. }
  change (1 + Z.of_nat 2) with maxRetries.
  pose proof (Hex maxRetries ltac:(unfold maxRetries; lia)) as Hlast.
  unfold retried in Hlast. unfold carried.
  destruct (reply (net w (reqURL req) maxRetries)) as [e|r] eqn:E.
  - erewrite retryLoop_error by exact E. cbn zeta. rewrite Z.eqb_refl.
    reflexivity.
  - destruct Hlast as [H200 Hrej]. apply Z.eqb_neq in H200.
    erewrite retryLoop_status by exact E. cbn zeta.
    rewrite H200, Hrej, Z.eqb_refl. reflexivity.
Qed.

(** A validation whose request could be built, in terms of its loop. *)
Lemma validation_by_loop w url t :
  request_error w (TrimSpace url) = None ->
  exists ex s1,
    fst (retryLoop w (TrimSpace url)
           (mkRequest (TrimSpace url) (t + timeoutSeconds))
           (Z.to_nat maxRetries) 1 1 None None {| clock := t; trace := [] |})
    = ex
    /\ body_calls (trace s1) = []
    /\ run (validateFeed w url) t
       = match ex with
         | Returned r => (r, s1)
         | Broke resp err => afterLoop w (TrimSpace url) resp err s1
         end.
Proof.
  intros Hreq. unfold run. rewrite validateFeed_eq. cbn zeta. rewrite Hreq.
  cbn [clock].
  pose proof (retryLoop_body_calls w (TrimSpace url)
                (mkRequest (TrimSpace url) (t + timeoutSeconds))
                (Z.to_nat maxRetries) 1 1 None None
                {| clock := t; trace := [] |}) as Hb.
  destruct (retryLoop _ _ _ _ _ _ _ _ _) as [ex s1]. cbn [fst snd] in *.
  exists ex, s1. split; [reflexivity|]. split; [exact Hb|].
  destruct ex; reflexivity.
Qed.

(** The status in each of the three cases. *)
Lemma fetched_status w url t k r :
  request_error w (TrimSpace url) = None ->
  fetched w (TrimSpace url) k r ->
  Status (result_of w url t)
  = match Body r with
    | inl _ => "transient"
    | inr body => match decode w body with
                  | inl _ => "invalid"
                  | inr _ => "valid"
                  end
    end
  /\ body_calls (trace_of w url t)
     = EvReadAll :: match Body r with inr _ => [EvParse] | inl _ => [] end.
Proof.
  intros Hreq Hf.
  destruct (validation_by_loop w url t Hreq) as (ex & s1 & Hex & Hb & Hrun).
  rewrite (fetched_loop w (TrimSpace url)
             (mkRequest (TrimSpace url) (t + timeoutSeconds)) _ k r Hf) in Hex. subst ex.
  destruct Hf as (_ & _ & _ & H200).
  unfold result_of, trace_of. rewrite Hrun, afterLoop_trace, body_calls_app, Hb.
  rewrite H200. cbn [Z.eqb Pos.eqb app]. split.
  - unfold afterLoop, bind, io_ReadAll, parser_Parse, emit, bind, ret.
    rewrite H200. cbn [Z.eqb Pos.eqb negb fst snd].
    destruct (Body r) as [e|body]; [reflexivity|].
    destruct (decode w body) as [pe|feed].
    + destruct (_ || _); reflexivity.
    + apply classify_URL.
  - destruct (Body r); reflexivity.
Qed.

Lemma exhausted_status w url t :
  request_error w (TrimSpace url) = None ->
  exhausted w (TrimSpace url) ->
  Status (result_of w url t) = "transient"
  /\ Message (result_of w url t)
     = match reply (net w (TrimSpace url) maxRetries) with
       | inl e =>
           if is_timeout e then "Request timed out after 30 seconds" else e
       | inr r =>
           ("Failed after 3 attempts, last status: " ++ itoa (StatusCode r))%string
       end
  /\ body_calls (trace_of w url t) = [].
Proof.
  intros Hreq Hx.
  destruct (validation_by_loop w url t Hreq) as (ex & s1 & Hex & Hb & Hrun).
  rewrite (exhausted_loop w (TrimSpace url)
             (mkRequest (TrimSpace url) (t + timeoutSeconds)) _ Hx) in Hex. subst ex.
  pose proof (Hx maxRetries ltac:(unfold maxRetries; lia)) as Hlast.
  unfold retried in Hlast. cbn [reqURL] in Hrun.
  unfold result_of, trace_of. rewrite Hrun, afterLoop_trace, body_calls_app, Hb.
  unfold carried, afterLoop.
  destruct (reply (net w (TrimSpace url) maxRetries)) as [e|r]; cbn [fst snd].
  - destruct (is_timeout e); repeat split.
  - destruct Hlast as [H200 _]. apply Z.eqb_neq in H200. rewrite H200.
    repeat split.
Qed.

Lemma rejected_loop w url req s k r :
  rejected_at w (reqURL req) k r ->
  fst (retryLoop w url req (Z.to_nat maxRetries) 1 1 None None s)
  = Returned (mkResult url "invalid"
                ("HTTP status " ++ itoa (StatusCode r))%string 0 GoTime.zero).
Proof.
  intros (Hk & Hre & Hrep & Hrej).
  pose proof (rejected_not_200 _ Hrej) as H200.
  replace (Z.to_nat maxRetries)
    with (Z.to_nat (k - 1) + S (Z.to_nat (maxRetries - k)))%nat
    by (unfold maxRetries in *; lia).
  destruct (retryLoop_retries w url req (Z.to_nat (k - 1))
              (Z.to_nat (maxRetries - k)) 1 1 None None s)
    as (resp' & err' & s' & -> & _).
  { intros j Hj. apply Hre. lia. }
  { lia. }
  replace (1 + Z.of_nat (Z.to_nat (k - 1))) with k by lia.
  erewrite retryLoop_status by exact Hrep.
  cbn zeta. rewrite H200, Hrej. reflexivity.
Qed.

Lemma rejected_status w url t k r :
  request_error w (TrimSpace url) = None ->
  rejected_at w (TrimSpace url) k r ->
  result_of w url t
  = mkResult (TrimSpace url) "invalid"
      ("HTTP status " ++ itoa (StatusCode r))%string 0 GoTime.zero
  /\ body_calls (trace_of w url t) = [].
Proof.
  intros Hreq Hr.
  destruct (validation_by_loop w url t Hreq) as (ex & s1 & Hex & Hb & Hrun).
  rewrite (rejected_loop w (TrimSpace url)
             (mkRequest (TrimSpace url) (t + timeoutSeconds)) _ k r Hr) in Hex. subst ex.
  unfold result_of, trace_of. rewrite Hrun. auto.
Qed.

(** The three cases exclude one another. *)
Lemma retried_not_200 x r :
  retried x -> reply x = inr r -> StatusCode r = 200 -> False.
Proof. unfold retried. intros H E S. rewrite E in H. tauto. Qed.

Lemma retried_not_rejected x r :
  retried x -> reply x = inr r -> rejected (StatusCode r) = true -> False.
Proof.
  unfold retried. intros H E S. rewrite E in H. destruct H as [_ H].
  congruence.
Qed.

Lemma fetched_unique w u k r k' r' :
  fetched w u k r -> fetched w u k' r' -> k = k' /\ r = r'.
Proof.
  intros (Hk & Hre & Hrep & H200) (Hk' & Hre' & Hrep' & H200').
  assert (k = k').
  { destruct (Z.lt_trichotomy k k') as [L|[E|L]]; [|exact E|]; exfalso.
    - apply (retried_not_200 _ _ (Hre' k ltac:(lia)) Hrep H200).
    - apply (retried_not_200 _ _ (Hre k' ltac:(lia)) Hrep' H200'). }
  subst k'. split; [reflexivity|]. congruence.
Qed.

Lemma fetched_not_rejected w u k r k' r' :
  fetched w u k r -> rejected_at w u k' r' -> False.
Proof.
  intros (Hk & Hre & Hrep & H200) (Hk' & Hre' & Hrep' & Hrej).
  destruct (Z.lt_trichotomy k k') as [L|[E|L]].
  - apply (retried_not_200 _ _ (Hre' k ltac:(lia)) Hrep H200).
  - subst k'. assert (r = r') by congruence. subst r'.
    rewrite H200 in Hrej. discriminate.
  - apply (retried_not_rejected _ _ (Hre k' ltac:(lia)) Hrep' Hrej).
Qed.

Lemma fetched_not_exhausted w u k r :
  fetched w u k r -> exhausted w u -> False.
Proof.
  intros (Hk & Hre & Hrep & H200) Hx.
  apply (retried_not_200 _ _ (Hx k Hk) Hrep H200).
Qed.

(** X4: a status the loop does not retry, at whichever attempt it comes,
    ends the validation there: the result is invalid with "HTTP status N",
    no further attempt is made, no sleep follows and the body is neither
    read nor decoded. *)
Theorem rejection_ends_the_validation w url t k r :
  request_error w (TrimSpace url) = None ->
  rejected_at w (TrimSpace url) k r ->
  result_of w url t
  = mkResult (TrimSpace url) "invalid"
      ("HTTP status " ++ itoa (StatusCode r))%string 0 GoTime.zero
  /\ attempts (trace_of w url t) = numbered 1 (Z.to_nat k)
  /\ sleeps (trace_of w url t) = backoffs 1 (Z.to_nat k - 1)
  /\ body_calls (trace_of w url t) = [].
Proof.
  intros Hreq Hr.
  destruct (rejected_status w url t k r Hreq Hr) as [Hres Hb].
  destruct (rejected_run w url t k r Hreq Hr) as (s1 & Hrun & Hat & Hsl).
  unfold trace_of in *. rewrite Hrun in *. auto.
Qed.

Lemma rejection_ends_the_validation_witness :
  result_of Cases.world "http://moved.example/rss" Sample.noon
  = mkResult "http://moved.example/rss" "invalid" "HTTP status 404" 0 GoTime.zero
  /\ attempts (trace_of Cases.world "http://moved.example/rss" Sample.noon) = [1; 2]
  /\ sleeps (trace_of Cases.world "http://moved.example/rss" Sample.noon) = [1]
  /\ body_calls (trace_of Cases.world "http://moved.example/rss" Sample.noon) = [].
Proof.
  apply (rejection_ends_the_validation Cases.world "http://moved.example/rss"
           Sample.noon 2 {| StatusCode := 404; Body := inr EmptyString |}).
  - reflexivity.
  - split; [unfold maxRetries; lia|]. split; [|split; reflexivity].
    intros j Hj. replace j with 1 by lia. split; [simpl; lia|reflexivity].
Defined.

(** X5: when no attempt is answered with 200 or with a status that is not
    retried, the result is transient after three attempts and its message is
    taken from the last attempt alone: its error text (or the time-out
    message), or "Failed after 3 attempts, last status: K" when it was
    answered, whatever the earlier attempts ran into. *)
Theorem exhaustion_reports_the_last_attempt w url t :
  request_error w (TrimSpace url) = None ->
  exhausted w (TrimSpace url) ->
  Status (result_of w url t) = "transient"
  /\ Message (result_of w url t)
     = match reply (net w (TrimSpace url) maxRetries) with
       | inl e =>
           if is_timeout e then "Request timed out after 30 seconds" else e
       | inr r =>
           ("Failed after 3 attempts, last status: " ++ itoa (StatusCode r))%string
       end
  /\ attempts (trace_of w url t) = [1; 2; 3]
  /\ sleeps (trace_of w url t) = [1; 2]
  /\ body_calls (trace_of w url t) = [].
Proof.
  intros Hreq Hx.
  destruct (exhausted_status w url t Hreq Hx) as (Hst & Hmsg & Hb).
  destruct (exhausted_run w url t Hreq Hx) as (s1 & Hrun & Hat & Hsl & _).
  destruct (afterLoop_quiet w (TrimSpace url)
              (fst (carried (net w (TrimSpace url) maxRetries)))
              (snd (carried (net w (TrimSpace url) maxRetries))) s1)
    as [Hat' Hsl'].
  repeat split; try assumption; unfold trace_of; rewrite Hrun; congruence.
Qed.

Lemma exhaustion_reports_the_last_attempt_witness :
  (Status (result_of Cases.world "http://mixed.example/rss" Sample.noon) = "transient"
   /\ Message (result_of Cases.world "http://mixed.example/rss" Sample.noon)
      = "Failed after 3 attempts, last status: 502")
  /\ (Status (result_of Cases.world "http://fading.example/rss" Sample.noon)
      = "transient"
      /\ Message (result_of Cases.world "http://fading.example/rss" Sample.noon)
         = "read tcp: connection reset by peer").
Proof.
  split.
  - destruct (exhaustion_reports_the_last_attempt Cases.world
                "http://mixed.example/rss" Sample.noon) as (Hst & Hmsg & _).
    + reflexivity.
    + intros j Hj. unfold maxRetries in Hj.
      assert (Hc : j = 1 \/ j = 2 \/ j = 3) by lia.
      destruct Hc as [-> | [-> | ->]]; unfold retried; simpl; auto.
      split; [lia|reflexivity].
    + split; [exact Hst|exact Hmsg].
  - destruct (exhaustion_reports_the_last_attempt Cases.world
                "http://fading.example/rss" Sample.noon) as (Hst & Hmsg & _).
    + reflexivity.
    + intros j Hj. unfold maxRetries in Hj.
      assert (Hc : j = 1 \/ j = 2 \/ j = 3) by lia.
      destruct Hc as [-> | [-> | ->]]; unfold retried; simpl; auto;
        (split; [lia|reflexivity]).
    + split; [exact Hst|exact Hmsg].
Defined.

(** X6: a URL is reported valid exactly when its request could be built,
    some attempt was answered with status 200 after none but retried
    attempts, the body of that answer was read in full and the decoder
    accepted it. *)
Theorem valid_iff_fetched_and_decoded w url t :
  Status (result_of w url t) = "valid"
  <-> request_error w (TrimSpace url) = None
      /\ exists k r body feed,
           fetched w (TrimSpace url) k r
           /\ Body r = inr body
           /\ decode w body = inr feed.
Proof.
  split.
  - intros Hv.
    destruct (request_error w (TrimSpace url)) as [e|] eqn:Hreq.
    { unfold result_of in Hv. rewrite (malformed_run w url t e Hreq) in Hv.
      discriminate Hv. }
    split; [reflexivity|].
    destruct (loop_cases w (TrimSpace url)) as [(k & r & Hf)|[(k & r & Hr)|Hx]].
    + destruct (fetched_status w url t k r Hreq Hf) as [Hst _].
      rewrite Hst in Hv.
      destruct (Body r) as [e|body] eqn:Hb; [discriminate|].
      destruct (decode w body) as [pe|feed] eqn:Hd; [discriminate|].
      exists k, r, body, feed. auto.
    + destruct (rejected_status w url t k r Hreq Hr) as [Hres _].
      rewrite Hres in Hv. discriminate.
    + destruct (exhausted_status w url t Hreq Hx) as [Hst _].
      rewrite Hst in Hv. discriminate.
  - intros (Hreq & k & r & body & feed & Hf & Hb & Hd).
    destruct (fetched_status w url t k r Hreq Hf) as [Hst _].
    rewrite Hst, Hb, Hd. reflexivity.
Qed.

(** X7: a URL is reported transient exactly when its request could be built
    and either no attempt was answered with 200 or with a status that is
    not retried, or the body of the 200 answer could not be read; a decoder
    failure and a malformed URL never are. *)
Theorem transient_iff_exhausted_or_unread w url t :
  Status (result_of w url t) = "transient"
  <-> request_error w (TrimSpace url) = None
      /\ (exhausted w (TrimSpace url)
          \/ exists k r e, fetched w (TrimSpace url) k r /\ Body r = inl e).
Proof.
  split.
  - intros Hv.
    destruct (request_error w (TrimSpace url)) as [e|] eqn:Hreq.
    { unfold result_of in Hv. rewrite (malformed_run w url t e Hreq) in Hv.
      discriminate Hv. }
    split; [reflexivity|].
    destruct (loop_cases w (TrimSpace url)) as [(k & r & Hf)|[(k & r & Hr)|Hx]].
    + destruct (fetched_status w url t k r Hreq Hf) as [Hst _].
      rewrite Hst in Hv.
      destruct (Body r) as [e|body] eqn:Hb; [right; eauto|].
      destruct (decode w body); discriminate.
    + destruct (rejected_status w url t k r Hreq Hr) as [Hres _].
      rewrite Hres in Hv. discriminate.
    + left. exact Hx.
  - intros (Hreq & [Hx|(k & r & e & Hf & Hb)]).
    + apply (exhausted_status w url t Hreq Hx).
    + destruct (fetched_status w url t k r Hreq Hf) as [Hst _].
      rewrite Hst, Hb. reflexivity.
Qed.

(** X8: the body of a response is read only after an answer with status
    200, and the decoder is called only on a body that was read in full;
    each happens at most once in a validation. *)
Theorem body_is_used_after_200_only w url t :
  (In EvReadAll (trace_of w url t)
   <-> request_error w (TrimSpace url) = None
       /\ exists k r, fetched w (TrimSpace url) k r)
  /\ (In EvParse (trace_of w url t)
      <-> request_error w (TrimSpace url) = None
          /\ exists k r body, fetched w (TrimSpace url) k r /\ Body r = inr body)
  /\ (body_calls (trace_of w url t) = []
      \/ body_calls (trace_of w url t) = [EvReadAll]
      \/ body_calls (trace_of w url t) = [EvReadAll; EvParse]).
Proof.
  assert (Hin : forall e, (e = EvReadAll \/ e = EvParse) ->
            (In e (trace_of w url t) <-> In e (body_calls (trace_of w url t)))).
  { intros e He. unfold body_calls. rewrite filter_In.
    destruct He as [-> | ->]; tauto. }
  rewrite (Hin EvReadAll) by auto. rewrite (Hin EvParse) by auto.
  destruct (request_error w (TrimSpace url)) as [e|] eqn:Hreq.
  { unfold trace_of. rewrite (malformed_run w url t e Hreq). cbn.
    repeat split; try tauto; try (intros [H _]; discriminate H);
      try (intros []); auto. }
  assert (Hnone : (forall k r, ~ fetched w (TrimSpace url) k r) ->
            body_calls (trace_of w url t) = [] ->
            (In EvReadAll (body_calls (trace_of w url t))
             <-> @None string = None /\ exists k r, fetched w (TrimSpace url) k r)
            /\ (In EvParse (body_calls (trace_of w url t))
                <-> @None string = None
                    /\ exists k r body,
                         fetched w (TrimSpace url) k r /\ Body r = inr body)
            /\ (body_calls (trace_of w url t) = []
                \/ body_calls (trace_of w url t) = [EvReadAll]
                \/ body_calls (trace_of w url t) = [EvReadAll; EvParse])).
  { intros Hno Hb. rewrite Hb. split; [|split]; [split|split|auto].
    - intros [].
    - intros (_ & k & r & Hf). apply (Hno k r Hf).
    - intros [].
    - intros (_ & k & r & body & Hf & _). apply (Hno k r Hf). }
  destruct (loop_cases w (TrimSpace url)) as [(k & r & Hf)|[(k & r & Hr)|Hx]].
  - destruct (fetched_status w url t k r Hreq Hf) as [_ Hb]. rewrite Hb.
    split; [|split].
    + split; [intros _; eauto|intros _; left; reflexivity].
    + destruct (Body r) as [e|body] eqn:HB.
      * split; [intros [H|[]]; discriminate H|].
        intros (_ & k' & r' & body & Hf' & HB').
        destruct (fetched_unique _ _ _ _ _ _ Hf Hf') as [_ <-]. congruence.
      * split; [intros _; eauto 6|intros _; right; left; reflexivity].
    + destruct (Body r); auto.
  - apply Hnone.
    + intros k' r' Hf. apply (fetched_not_rejected _ _ _ _ _ _ Hf Hr).
    + apply (rejected_status w url t k r Hreq Hr).
  - apply Hnone.
    + intros k' r' Hf. apply (fetched_not_exhausted _ _ _ _ Hf Hx).
    + apply (exhausted_status w url t Hreq Hx).
Qed.

(** ** Decoded feeds *)

(** The result for a feed that was fetched and decoded is the one of lines
    129-149, computed when the validation ends. *)
Lemma decoded_result w url t k r body feed :
  request_error w (TrimSpace url) = None ->
  fetched w (TrimSpace url) k r ->
  Body r = inr body ->
  decode w body = inr feed ->
  exists s2,
    result_of w url t = fst (classify (TrimSpace url) feed s2)
    /\ clock s2 = end_of w url t.
Proof.
  intros Hreq Hf Hbody Hdec.
  destruct (fetched_run w url t k r Hreq Hf) as (s1 & Hrun & _).
  destruct Hf as (_ & _ & _ & H200).
  unfold result_of, end_of. rewrite Hrun.
  unfold afterLoop, bind, io_ReadAll, parser_Parse, emit, bind, ret.
  rewrite H200. cbn [Z.eqb Pos.eqb negb fst snd]. rewrite Hbody, Hdec.
  eexists. split; [reflexivity|]. rewrite classify_state. reflexivity.
Qed.

Lemma afterLoop_bare w url resp err s :
  Status (fst (afterLoop w url resp err s)) <> "valid" ->
  ItemCount (fst (afterLoop w url resp err s)) = 0
  /\ LastUpdate (fst (afterLoop w url resp err s)) = GoTime.zero.
Proof.
  unfold afterLoop, bind, io_ReadAll, parser_Parse, emit, bind, ret.
  destruct err as [e|].
  { destruct (is_timeout e); cbn; auto. }
  destruct resp as [r|]; [|cbn; auto].
  destruct (negb (StatusCode r =? 200)); [cbn; auto|]. cbn.
  destruct (Body r) as [e|body]; [cbn; auto|].
  destruct (decode w body) as [pe|feed].
  - destruct (_ || _); cbn; auto.
  - intros H. exfalso. apply H. apply classify_URL.
Qed.

(** X9: the item count and the last update of a result are set only when
    the URL is reported valid: on every invalid or transient result the
    count is 0 and the last update is the zero time. *)
Theorem only_valid_results_carry_feed_data w url t :
  Status (result_of w url t) <> "valid" ->
  ItemCount (result_of w url t) = 0
  /\ LastUpdate (result_of w url t) = GoTime.zero.
Proof.
  intros Hnv.
  destruct (request_error w (TrimSpace url)) as [e|] eqn:Hreq.
  { unfold result_of. rewrite (malformed_run w url t e Hreq). auto. }
  destruct (validation_by_loop w url t Hreq) as (ex & s1 & Hex & _ & Hrun).
  unfold result_of in *. rewrite Hrun in *.
  destruct (loop_cases w (TrimSpace url)) as [(k & r & Hf)|[(k & r & Hr)|Hx]].
  - rewrite (fetched_loop w (TrimSpace url)
               (mkRequest (TrimSpace url) (t + timeoutSeconds)) _ k r Hf) in Hex.
    subst ex. apply afterLoop_bare, Hnv.
  - rewrite (rejected_loop w (TrimSpace url)
               (mkRequest (TrimSpace url) (t + timeoutSeconds)) _ k r Hr) in Hex.
    subst ex. auto.
  - rewrite (exhausted_loop w (TrimSpace url)
               (mkRequest (TrimSpace url) (t + timeoutSeconds)) _ Hx) in Hex.
    subst ex. apply afterLoop_bare, Hnv.
Qed.

Lemma only_valid_results_carry_feed_data_witness :
  ItemCount (result_of Sample.world "http://html.example/" Sample.noon) = 0
  /\ LastUpdate (result_of Sample.world "http://html.example/" Sample.noon)
     = GoTime.zero.
Proof.
  apply (only_valid_results_carry_feed_data Sample.world "http://html.example/"
           Sample.noon).
  simpl. discriminate.
Defined.

(** X10: a feed decoded with no item is reported valid with exactly
    "Warning: No feed items" and count 0; the staleness warning is never
    given to it, however old its feed-level timestamp, which the result
    still carries. *)
Theorem empty_feed_gets_the_items_warning w url t k r body feed :
  request_error w (TrimSpace url) = None ->
  fetched w (TrimSpace url) k r ->
  Body r = inr body ->
  decode w body = inr feed ->
  Items feed = [] ->
  result_of w url t
  = mkResult (TrimSpace url) "valid" "Warning: No feed items" 0
      match UpdatedParsed feed with
      | Some T => T
      | None => GoTime.zero
      end.
Proof.
  intros Hreq Hf Hbody Hdec Hit.
  destruct (decoded_result w url t k r body feed Hreq Hf Hbody Hdec)
    as (s2 & -> & _).
  unfold classify, bind, time_Now, ret. rewrite Hit. cbn.
  destruct (UpdatedParsed feed); reflexivity.
Qed.

Lemma empty_feed_gets_the_items_warning_witness :
  result_of Cases.world "http://bare.example/rss" Sample.noon
  = mkResult "http://bare.example/rss" "valid" "Warning: No feed items" 0
      Cases.old.
Proof.
  apply (empty_feed_gets_the_items_warning Cases.world "http://bare.example/rss"
           Sample.noon 1
           {| StatusCode := 200; Body := inr "<rss>bare</rss>" |}
           "<rss>bare</rss>"
           {| UpdatedParsed := Some Cases.old; Items := [] |}).
  - reflexivity.
  - split; [unfold maxRetries; lia|]. split; [intros j Hj; lia|].
    split; reflexivity.
  - reflexivity.
  - reflexivity.
  - reflexivity.
Defined.

(** X11: for a feed decoded with at least one item the last update is the
    feed-level timestamp, or else the published timestamp of the first item
    (no other item is looked at), or else the zero time; the count is the
    number of items; and the staleness warning is given exactly when that
    last update lies before the date six months back from the clock at the
    end of the validation, after every retry and sleep. *)
Theorem feed_with_items_is_dated w url t k r body feed i rest :
  request_error w (TrimSpace url) = None ->
  fetched w (TrimSpace url) k r ->
  Body r = inr body ->
  decode w body = inr feed ->
  Items feed = i :: rest ->
  let T := match UpdatedParsed feed, PublishedParsed i with
           | Some T, _ => T
           | None, Some T => T
           | None, None => GoTime.zero
           end in
  result_of w url t
  = mkResult (TrimSpace url) "valid"
      (if GoTime.Before T (GoTime.AddDate (end_of w url t) 0 (-6) 0)
       then "Warning: Feed hasn't been updated in over 6 months"
       else EmptyString)
      (Z.of_nat (S (List.length rest))) T.
Proof.
  intros Hreq Hf Hbody Hdec Hit T.
  destruct (decoded_result w url t k r body feed Hreq Hf Hbody Hdec)
    as (s2 & -> & <-).
  unfold classify, bind, time_Now, ret. rewrite Hit.
  replace (Z.of_nat (List.length (i :: rest)) =? 0) with false
    by (symmetry; apply Z.eqb_neq; cbn [List.length]; lia).
  subst T. destruct i as [p]. cbn [PublishedParsed List.length fst].
  destruct (UpdatedParsed feed) as [U|], p as [P|];
    destruct (GoTime.Before _ _); reflexivity.
Qed.

Lemma feed_with_items_is_dated_witness :
  result_of Cases.world "http://second.example/rss" Sample.noon
  = mkResult "http://second.example/rss" "valid" EmptyString 2 Sample.fresh.
Proof.
  apply (feed_with_items_is_dated Cases.world "http://second.example/rss"
           Sample.noon 2
           {| StatusCode := 200; Body := inr "<rss>items</rss>" |}
           "<rss>items</rss>"
           {| UpdatedParsed := None;
              Items := [ {| PublishedParsed := Some Sample.fresh |};
                         {| PublishedParsed := Some Cases.old |} ] |}
           {| PublishedParsed := Some Sample.fresh |}
           [ {| PublishedParsed := Some Cases.old |} ]).
  - reflexivity.
  - split; [unfold maxRetries; lia|]. split; [|split; reflexivity].
    intros j Hj. replace j with 1 by lia. exact I.
  - reflexivity.
  - reflexivity.
  - reflexivity.
Defined.

(** ** Extra properties of the dispatcher *)

Lemma step_inflight_bound w cap d d' :
  Z.of_nat (List.length (inflight d)) <= cap ->
  step w cap d d' ->
  Z.of_nat (List.length (inflight d')) <= cap.
Proof.
  intros Hb Hstep.
  destruct Hstep as [now u rest fl ch t Hcap Ht | now us fl1 u t fl2 ch];
    cbn [inflight] in *; rewrite length_app in *; cbn [List.length] in *; lia.
Qed.

Lemma step_conserves w cap d d' :
  step w cap d d' ->
  (List.length (pending d') + List.length (inflight d')
   + List.length (resultsChan d')
   = List.length (pending d) + List.length (inflight d)
     + List.length (resultsChan d))%nat.
Proof.
  intros Hstep.
  destruct Hstep as [now u rest fl ch t Hcap Ht | now us fl1 u t fl2 ch];
    cbn [pending inflight resultsChan]; rewrite !length_app;
    cbn [List.length]; lia.
Qed.

(** X12: at no point of a run are more validations in flight than the cap
    allows. *)
Theorem inflight_never_exceeds_cap w cap now urls d :
  0 <= cap ->
  steps w cap (initial now urls) d ->
  Z.of_nat (List.length (inflight d)) <= cap.
Proof.
  intros Hcap Hs.
  assert (H0 : Z.of_nat (List.length (inflight (initial now urls))) <= cap)
    by (cbn; lia).
  revert H0. induction Hs as [d|d1 d2 d3 Hstep _ IH]; intros H0; [exact H0|].
  apply IH. apply (step_inflight_bound _ _ _ _ H0 Hstep).
Qed.

(** X13: throughout a run every URL of the list is either still pending, or
    in flight, or has its result on the channel; so the channel, made with
    room for one result per URL, never holds more than it has room for and
    no goroutine waits to send. *)
Theorem channel_has_room w cap now urls d :
  steps w cap (initial now urls) d ->
  (List.length (pending d) + List.length (inflight d)
   + List.length (resultsChan d) = List.length urls)%nat
  /\ (List.length (resultsChan d) <= List.length urls)%nat.
Proof.
  intros Hs.
  assert (H : (List.length (pending d) + List.length (inflight d)
               + List.length (resultsChan d)
               = List.length (pending (initial now urls))
                 + List.length (inflight (initial now urls))
                 + List.length (resultsChan (initial now urls)))%nat).
  { induction Hs as [d|d1 d2 d3 Hstep _ IH]; [reflexivity|].
    rewrite IH. apply (step_conserves _ _ _ _ Hstep). }
  cbn in H. lia.
Qed.

Lemma back_to_back_snoc w sched :
  forall now g,
    back_to_back w now (sched ++ [g])
    <-> back_to_back w now sched /\ finish w now sched <= snd g.
Proof.
  induction sched as [|g0 sched IH]; intros now g; cbn.
  - tauto.
  - rewrite IH. tauto.
Qed.

Lemma finish_snoc w sched :
  forall now g, finish w now (sched ++ [g]) = end_of w (fst g) (snd g).
Proof.
  induction sched as [|g0 sched IH]; intros now g; cbn; [reflexivity|].
  apply IH.
Qed.

Lemma step_in_turn w now0 urls done d d' :
  in_turn w now0 urls done d ->
  step w 1 d d' ->
  exists done', in_turn w now0 urls done' d'.
Proof.
  intros (Hbb & Hurls & Hch & Hone & Hfin) Hstep.
  destruct Hstep as [now u rest fl ch t Hcap Ht | now us fl1 u t fl2 ch];
    cbn in *.
  - assert (fl = []) by (destruct fl; [reflexivity|cbn in Hcap; lia]).
    subst fl. rewrite app_nil_r in *. cbn.
    exists done. repeat split; cbn.
    + apply back_to_back_snoc. split; [exact Hbb|cbn; lia].
    + rewrite map_app, <- app_assoc. exact Hurls.
    + exact Hch.
    + lia.
    + exact Hfin.
  - assert (fl1 = [] /\ fl2 = []) as [-> ->].
    { rewrite length_app in Hone. cbn in Hone.
      destruct fl1, fl2; cbn in Hone; try lia. auto. }
    cbn in *. exists (done ++ [(u, t)]). repeat split; cbn.
    + rewrite app_nil_r. exact Hbb.
    + rewrite app_nil_r. exact Hurls.
    + rewrite map_app, Hch. reflexivity.
    + lia.
    + rewrite finish_snoc. cbn. lia.
Qed.

Lemma steps_in_turn w now0 urls d d' :
  steps w 1 d d' ->
  forall done, in_turn w now0 urls done d ->
  exists done', in_turn w now0 urls done' d'.
Proof.
  induction 1 as [d|d1 d2 d3 Hs _ IH]; intros done Hinv.
  - exists done. exact Hinv.
  - destruct (step_in_turn _ _ _ _ _ _ Hinv Hs) as [done' Hinv'].
    apply (IH done' Hinv').
Qed.

(** X14: under a cap of 1 the results are collected in the order of the URL
    list, and the validations do not overlap: each is entered no earlier
    than the one before it has ended. *)
Theorem cap_one_keeps_the_order w now urls results :
  completes w 1 now urls results ->
  map URL results = map TrimSpace urls
  /\ exists sched,
       map fst sched = urls
       /\ results = map (outcome w) sched
       /\ back_to_back w now sched.
Proof.
  intros (d & Hsteps & [Hpend Hfl] & Hres).
  destruct (steps_in_turn w now urls _ _ Hsteps [])
    as (done & Hbb & Hurls & Hch & _).
  { repeat split; cbn; lia. }
  rewrite Hfl, app_nil_r in *. rewrite Hpend, app_nil_r in Hurls.
  rewrite Hres in Hch.
  assert (Hu : map URL results = map TrimSpace urls).
  { rewrite Hch, <- Hurls, !map_map. apply map_ext. intros g.
    apply result_of_URL. }
  split; [exact Hu|]. exists done. auto.
Qed.

Lemma inflight_never_exceeds_cap_witness :
  Z.of_nat (List.length (inflight
     (mkDispatch Sample.noon [] (map (fun u => (u, Sample.noon)) Sample.trio) [])))
  <= concurrencyLimit.
Proof.
  apply (inflight_never_exceeds_cap Sample.world concurrencyLimit Sample.noon
           Sample.trio).
  - unfold concurrencyLimit. lia.
  - apply (steps_go_all Sample.world concurrencyLimit Sample.noon Sample.trio [] []).
    unfold concurrencyLimit. simpl. lia.
Defined.

Lemma channel_has_room_witness :
  let d := mkDispatch Sample.noon []
             (map (fun u => (u, Sample.noon)) Sample.trio) [] in
  (List.length (pending d) + List.length (inflight d)
   + List.length (resultsChan d) = List.length Sample.trio)%nat
  /\ (List.length (resultsChan d) <= List.length Sample.trio)%nat.
Proof.
  apply (channel_has_room Sample.world concurrencyLimit Sample.noon Sample.trio).
  apply (steps_go_all Sample.world concurrencyLimit Sample.noon Sample.trio [] []).
  unfold concurrencyLimit. simpl. lia.
Defined.

Lemma cap_one_keeps_the_order_witness :
  map URL (one_by_one Sample.world Sample.noon Sample.trio)
  = ["http://gone.example/rss"; "http://blank.example/";
     "http://down.example/rss"]
  /\ exists sched,
       map fst sched = Sample.trio
       /\ one_by_one Sample.world Sample.noon Sample.trio
          = map (outcome Sample.world) sched
       /\ back_to_back Sample.world Sample.noon sched.
Proof.
  apply (cap_one_keeps_the_order Sample.world Sample.noon Sample.trio).
  apply completes_one_by_one. lia.
Defined.

(** ** Extra properties of the report and of the exit code *)

Lemma with_status_total rs :
  Forall (fun r => is_status (Status r)) rs ->
  with_status "valid" rs + with_status "invalid" rs + with_status "transient" rs
  = total rs.
Proof.
  unfold with_status, total.
  induction 1 as [|r rs Hr _ IH]; [reflexivity|].
  cbn [map List.length]. rewrite Nat2Z.inj_succ, <- IH.
  destruct Hr as [E|[E|E]]; rewrite E;
    repeat first [ rewrite count_occ_cons_eq by reflexivity
                 | rewrite count_occ_cons_neq by discriminate ];
    lia.
Qed.

Lemma tally_warnings rs :
  forall c,
    0 <= warnings c <= valid c ->
    0 <= warnings (fold_left tally rs c) <= valid (fold_left tally rs c).
Proof.
  induction rs as [|r rs IH]; intros c Hc; [exact Hc|].
  cbn [fold_left]. apply IH. unfold tally.
  destruct (String.eqb (Status r) "valid");
    [destruct (negb (String.eqb (Message r) EmptyString)); cbn; lia|].
  destruct (String.eqb (Status r) "invalid"); [cbn; lia|].
  destruct (String.eqb (Status r) "transient"); cbn; lia.
Qed.

Lemma completes_statuses w cap now urls results :
  completes w cap now urls results ->
  Forall (fun r => is_status (Status r)) results.
Proof.
  intros Hc.
  destruct (completes_outcomes _ _ _ _ _ Hc) as (sched & _ & Hperm & _).
  rewrite Forall_forall. intros r Hin.
  apply (Permutation_in _ Hperm) in Hin. apply in_map_iff in Hin.
  destruct Hin as (g & <- & _). apply result_of_URL.
Qed.

(** X15: in the report of a complete run every URL of the list is counted
    once: the counts of valid, invalid and transient results add up to the
    total, which is the length of the URL list, and the warnings are at most
    as many as the valid results. *)
Theorem report_counts_add_up w cap now urls results :
  completes w cap now urls results ->
  valid (report results) + invalid (report results) + transient (report results)
  = total results
  /\ total results = Z.of_nat (List.length urls)
  /\ 0 <= warnings (report results) <= valid (report results).
Proof.
  intros Hc. split; [|split].
  - destruct (report_counts results) as (-> & -> & ->).
    apply with_status_total, (completes_statuses _ _ _ _ _ Hc).
  - destruct (completes_outcomes _ _ _ _ _ Hc) as (sched & Hurls & Hperm & _).
    unfold total. rewrite (Permutation_length Hperm), length_map, <- Hurls,
      length_map. reflexivity.
  - apply tally_warnings. cbn. lia.
Qed.

Lemma report_counts_add_up_witness :
  let results := all_at_once Sample.world Sample.noon Sample.trio in
  valid (report results) + invalid (report results) + transient (report results)
  = total results
  /\ total results = 3
  /\ 0 <= warnings (report results) <= valid (report results).
Proof.
  apply (report_counts_add_up Sample.world concurrencyLimit Sample.noon
           Sample.trio).
  apply completes_all_at_once. unfold concurrencyLimit. simpl. lia.
Defined.

(** X16: the report and the total do not depend on the order in which the
    results arrive on the channel. *)
Theorem report_ignores_the_arrival_order rs rs' :
  Permutation rs rs' ->
  report rs = report rs' /\ total rs = total rs'.
Proof.
  intros H. split; [apply report_perm, H|].
  unfold total. rewrite (Permutation_length H). reflexivity.
Qed.

Lemma report_ignores_the_arrival_order_witness :
  let a := result_of Sample.world "http://gone.example/rss" Sample.noon in
  let b := result_of Sample.world "http://flaky.example/rss" Sample.noon in
  report [a; b] = report [b; a] /\ total [a; b] = total [b; a].
Proof.
  intros a b. apply (report_ignores_the_arrival_order [a; b] [b; a]).
  apply perm_swap.
Defined.

Lemma positive_count l st :
  (0 <? Z.of_nat (count_occ string_dec l st))
  = existsb (fun x => String.eqb x st) l.
Proof.
  induction l as [|x l IH]; [reflexivity|]. cbn [existsb].
  destruct (String.eqb_spec x st) as [E|N].
  - rewrite (count_occ_cons_eq _ _ E). cbn [orb]. apply Z.ltb_lt. lia.
  - rewrite (count_occ_cons_neq _ _ N). cbn [orb]. exact IH.
Qed.

Lemma existsb_over_map {A B : Type} (f : B -> bool) (g : A -> B) (l : list A) :
  existsb f (map g l) = existsb (fun a => f (g a)) l.
Proof.
  induction l as [|a l IH]; [reflexivity|]. cbn. rewrite IH. reflexivity.
Qed.

(** The exit code of a complete run, read off the statuses of the URLs. *)
Lemma exitCode_of_run w cap now urls results getenv :
  completes w cap now urls results ->
  exitCode getenv (report results) = expected_code w getenv urls.
Proof.
  intros Hc.
  pose proof (completes_verdicts _ _ _ _ _ Hc) as Hv.
  assert (Hcount : forall st,
            (0 <? with_status st results) = some_url_is w urls st).
  { intros st.
    rewrite (with_status_perm st results (map (fun u => result_of w u 0) urls))
      by (rewrite map_map; exact Hv).
    unfold with_status, some_url_is.
    rewrite positive_count, map_map, existsb_over_map. reflexivity. }
  unfold exitCode, expected_code.
  destruct (report_counts results) as (_ & -> & ->).
  rewrite !Hcount.
  destruct (some_url_is w urls "invalid"), (some_url_is w urls "transient"),
    (String.eqb (getenv "IGNORE_INVALID_FEEDS") "true"),
    (String.eqb (getenv "FAIL_ON_TRANSIENT") "true"); reflexivity.
Qed.

(** X17: the exit code of the program is fixed by its inputs, whatever the
    interleaving of the validations: it is the code of the start-up when no
    URL is dispatched, and otherwise 1 exactly when some URL is invalid and
    IGNORE_INVALID_FEEDS is not "true", or some URL is transient and
    FAIL_ON_TRANSIENT is "true". *)
Theorem main_exit_code w fs getenv args now code :
  exits w fs getenv args now code
  <-> code = match startup fs args with
             | Exit c => c
             | Validate urls => expected_code w getenv urls
             end.
Proof.
  unfold exits. destruct (startup fs args) as [c|urls]; [tauto|].
  split.
  - intros (results & Hc & ->). apply (exitCode_of_run _ _ _ _ _ _ Hc).
  - intros ->.
    destruct (can_finish w concurrencyLimit ltac:(unfold concurrencyLimit; lia)
                (initial now urls)) as (d & Hs & Hf).
    assert (Hc : completes w concurrencyLimit now urls (resultsChan d))
      by (exists d; auto).
    exists (resultsChan d). split; [exact Hc|].
    symmetry. apply (exitCode_of_run _ _ _ _ _ _ Hc).
Qed.

Lemma main_exit_code_witness :
  exits Sample.world Files.fs Files.getenv ["validate_feeds"] Sample.noon 1
  /\ exits Sample.world Files.fs (fun _ => EmptyString)
       ["validate_feeds"; "empty.csv"; "--no-header"] Sample.noon 0.
Proof. split; apply main_exit_code; reflexivity. Defined.

(** ** Extra properties of the start-up *)

Lemma readLoop_eq reads :
  forall urls lineNum,
    readLoop reads urls lineNum
    = (urls ++ filter kept (flat_map first_field reads),
       lineNum + Z.of_nat (List.length reads)).
Proof.
  induction reads as [|r reads IH]; intros urls lineNum.
  - cbn. rewrite app_nil_r, Z.add_0_r. reflexivity.
  - cbn [readLoop flat_map List.length]. rewrite Nat2Z.inj_succ.
    destruct r as [[|url record]|e]; cbn [first_field app];
      [rewrite IH; f_equal; lia| |rewrite IH; f_equal; lia].
    cbn [filter]. fold (kept url). destruct (kept url); rewrite IH.
    + rewrite <- app_assoc. cbn. f_equal. lia.
    + f_equal. lia.
Qed.

Lemma readLoop_keeps_the_urls_aux reads lineNum :
  fst (readLoop reads [] lineNum) = filter kept (flat_map first_field reads)
  /\ Forall (fun u => u <> EmptyString /\ HasPrefix u "#" = false)
            (fst (readLoop reads [] lineNum)).
Proof.
  rewrite readLoop_eq. cbn [fst app]. split; [reflexivity|].
  rewrite Forall_forall. intros u Hin. apply filter_In in Hin as [_ Hk].
  unfold kept in Hk. apply andb_true_iff in Hk as [Hne Hpre].
  apply negb_true_iff in Hne, Hpre. split; [|exact Hpre].
  intros ->. discriminate Hne.
Qed.

(** X18: the loop that reads the file keeps, in their order, the first
    fields that are neither empty nor start with "#"; the other fields, the
    empty records and the lines the reader fails on are passed over without
    stopping; and the line counter advances by one for each read. *)
Theorem readLoop_keeps_the_urls reads lineNum :
  fst (readLoop reads [] lineNum) = filter kept (flat_map first_field reads)
  /\ snd (readLoop reads [] lineNum) = lineNum + Z.of_nat (List.length reads)
  /\ Forall (fun u => u <> EmptyString /\ HasPrefix u "#" = false)
            (fst (readLoop reads [] lineNum)).
Proof.
  destruct (readLoop_keeps_the_urls_aux reads lineNum) as [Hf Hall].
  split; [exact Hf|]. split; [|exact Hall].
  rewrite readLoop_eq. reflexivity.
Qed.

(** X19: when the start-up hands URLs to the dispatcher the list is not
    empty, it holds no empty text and no text that starts with "#", and it
    is what the loop keeps of the reads after the header. *)
Theorem startup_hands_over_urls fs args urls :
  startup fs args = Validate urls ->
  urls <> []
  /\ Forall (fun u => u <> EmptyString /\ HasPrefix u "#" = false) urls
  /\ exists reads rows,
       fs (inputFile args) = inr reads
       /\ data_rows args reads = Some rows
       /\ urls = filter kept (flat_map first_field rows).
Proof.
  unfold startup, data_rows.
  destruct (fs (inputFile args)) as [e|reads]; [discriminate|].
  assert (Hcollect : forall rows n,
            (if Nat.eqb (List.length (fst (readLoop rows [] n))) 0
             then Exit 0 else Validate (fst (readLoop rows [] n)))
            = Validate urls ->
            urls <> []
            /\ Forall (fun u => u <> EmptyString /\ HasPrefix u "#" = false) urls
            /\ urls = filter kept (flat_map first_field rows)).
  { intros rows n.
    destruct (readLoop_keeps_the_urls_aux rows n) as (Hf & Hall).
    destruct (Nat.eqb_spec (List.length (fst (readLoop rows [] n))) 0) as [E|N];
      [discriminate|].
    intros [= <-]. split; [|split; [exact Hall|exact Hf]].
    intros E. rewrite E in N. apply N. reflexivity. }
  destruct (hasHeader args).
  - destruct reads as [|[h|e] rest]; try discriminate.
    intros H. destruct (Hcollect _ _ H) as (H1 & H2 & H3). eauto 8.
  - intros H. destruct (Hcollect _ _ H) as (H1 & H2 & H3). eauto 8.
Qed.

Lemma startup_hands_over_urls_witness :
  ["http://gone.example/rss"; "http://down.example/rss"] <> []
  /\ Forall (fun u => u <> EmptyString /\ HasPrefix u "#" = false)
            ["http://gone.example/rss"; "http://down.example/rss"]
  /\ exists reads rows,
       Files.fs (inputFile ["validate_feeds"]) = inr reads
       /\ data_rows ["validate_feeds"] reads = Some rows
       /\ ["http://gone.example/rss"; "http://down.example/rss"]
          = filter kept (flat_map first_field rows).
Proof.
  apply (startup_hands_over_urls Files.fs ["validate_feeds"]).
  reflexivity.
Defined.

(** What the start-up makes of the reads after the header. *)
Lemma collect_eq rows n :
  (if Nat.eqb (List.length (fst (readLoop rows [] n))) 0
   then Exit 0 else Validate (fst (readLoop rows [] n)))
  = match filter kept (flat_map first_field rows) with
    | [] => Exit 0
    | urls => Validate urls
    end.
Proof.
  rewrite readLoop_eq. cbn [fst app].
  destruct (filter kept (flat_map first_field rows)); reflexivity.
Qed.

(** The start-up in terms of the reads after the header. *)
Lemma startup_eq fs args :
  startup fs args
  = match fs (inputFile args) with
    | inl _ => Exit 1
    | inr reads =>
        match data_rows args reads with
        | None => Exit 1
        | Some rows =>
            match filter kept (flat_map first_field rows) with
            | [] => Exit 0
            | urls => Validate urls
            end
        end
    end.
Proof.
  unfold startup, data_rows.
  destruct (fs (inputFile args)) as [e|reads]; [reflexivity|].
  destruct (hasHeader args); [|apply collect_eq].
  destruct reads as [|[h|e] rest]; [reflexivity|apply collect_eq|reflexivity].
Qed.

(** X20: the start-up leaves with code 1 exactly when the file cannot be
    opened or, a header being expected, the file is empty or its first line
    cannot be parsed; it leaves with code 0 exactly when the file is read
    and no line after the header gives a URL; it leaves with no other
    code. *)
Theorem startup_exit_codes fs args :
  (startup fs args = Exit 1
   <-> match fs (inputFile args) with
       | inl _ => True
       | inr reads => data_rows args reads = None
       end)
  /\ (startup fs args = Exit 0
      <-> exists reads rows,
            fs (inputFile args) = inr reads
            /\ data_rows args reads = Some rows
            /\ filter kept (flat_map first_field rows) = [])
  /\ (forall c, startup fs args = Exit c -> c = 0 \/ c = 1).
Proof.
  rewrite startup_eq.
  destruct (fs (inputFile args)) as [e|reads].
  { split; [tauto|]. split.
    - split; [discriminate|]. intros (reads & rows & H & _). discriminate H.
    - intros c [= <-]. auto. }
  destruct (data_rows args reads) as [rows|] eqn:D.
  - destruct (filter kept (flat_map first_field rows)) as [|u us] eqn:E.
    + split; [split; discriminate|]. split.
      * split; [intros _; exists reads, rows; auto|reflexivity].
      * intros c [= <-]. auto.
    + split; [split; discriminate|]. split.
      * split; [discriminate|].
        intros (reads0 & rows0 & [= <-] & H1 & H2). congruence.
      * discriminate.
  - split; [tauto|]. split.
    + split; [discriminate|].
      intros (reads0 & rows0 & [= <-] & H & _). congruence.
    + intros c [= <-]. auto.
Qed.

(** ** The time a validation takes *)

Lemma fetches_app tr tr' : fetches (tr ++ tr') = fetches tr ++ fetches tr'.
Proof. apply filter_app. Qed.

Lemma retryLoop_schedule w url req left :
  forall a b resp err s,
    Z.of_nat (S left) = maxRetries + 1 - a ->
    exists n,
      (1 <= n <= S left)%nat
      /\ fetches (trace (snd (retryLoop w url req (S left) a b resp err s)))
         = fetches (trace s)
           ++ schedule w (reqURL req) (reqDeadline req) a b (clock s) n
      /\ clock (snd (retryLoop w url req (S left) a b resp err s))
         = clock s
           + sumZ (map (fun k => elapsed (net w (reqURL req) k)) (numbered a n))
           + sumZ (backoffs b (n - 1)).
Proof.
  induction left as [|left IH]; intros a b resp err s Hleft.
  - assert (Ha : (a =? maxRetries) = true) by (apply Z.eqb_eq; lia).
    exists 1%nat. split; [lia|].
    destruct (reply (net w (reqURL req) a)) as [e|r] eqn:E.
    + rewrite (retryLoop_error _ _ _ _ _ _ _ _ _ _ E). cbn zeta. rewrite Ha.
      cbn [snd after trace clock]. rewrite fetches_app. cbn.
      rewrite !Z.add_0_r. auto.
    + rewrite (retryLoop_status _ _ _ _ _ _ _ _ _ _ E). cbn zeta. rewrite Ha.
      destruct (StatusCode r =? 200); [|destruct (rejected (StatusCode r))];
        cbn [snd after trace clock]; rewrite fetches_app; cbn;
        rewrite !Z.add_0_r; auto.
  - assert (Ha : (a =? maxRetries) = false) by (apply Z.eqb_neq; lia).
    assert (Hnext : Z.of_nat (S left) = maxRetries + 1 - (a + 1)) by lia.
    assert (Hone : forall s1,
      clock s1 = clock s + elapsed (net w (reqURL req) a) ->
      fetches (trace s1)
      = fetches (trace s) ++ [EvDo a (clock s) (reqDeadline req)] ->
      exists n,
        (1 <= n <= S (S left))%nat
        /\ fetches (trace s1)
           = fetches (trace s)
             ++ schedule w (reqURL req) (reqDeadline req) a b (clock s) n
        /\ clock s1
           = clock s
             + sumZ (map (fun k => elapsed (net w (reqURL req) k)) (numbered a n))
             + sumZ (backoffs b (n - 1))).
    { intros s1 Hc Hf. exists 1%nat. split; [lia|]. rewrite Hf, Hc. cbn.
      rewrite !Z.add_0_r. auto. }
    assert (Hmore : forall resp' err' s2,
      clock s2 = clock s + elapsed (net w (reqURL req) a) + b ->
      fetches (trace s2)
      = fetches (trace s) ++ [EvDo a (clock s) (reqDeadline req)] ->
      exists n,
        (1 <= n <= S (S left))%nat
        /\ fetches (trace (snd (retryLoop w url req (S left) (a + 1) (b * 2)
                                  resp' err' s2)))
           = fetches (trace s)
             ++ schedule w (reqURL req) (reqDeadline req) a b (clock s) n
        /\ clock (snd (retryLoop w url req (S left) (a + 1) (b * 2)
                         resp' err' s2))
           = clock s
             + sumZ (map (fun k => elapsed (net w (reqURL req) k)) (numbered a n))
             + sumZ (backoffs b (n - 1))).
    { intros resp' err' s2 Hc Hf.
      destruct (IH (a + 1) (b * 2) resp' err' s2 Hnext) as (n & Hn & Hf' & Hc').
      exists (S n). split; [lia|].
      rewrite Hf', Hc', Hf, Hc.
      replace (S n - 1)%nat with (S (n - 1)) by lia.
      rewrite numbered_S, backoffs_S. cbn [map sumZ fold_right schedule].
      rewrite <- !app_assoc. cbn [app]. split; [reflexivity|].
      unfold sumZ. lia. }
    destruct (reply (net w (reqURL req) a)) as [e|r] eqn:E.
    + rewrite (retryLoop_error _ _ _ _ _ _ _ _ _ _ E). cbn zeta. rewrite Ha.
      apply Hmore; cbn [after trace clock]; rewrite ?fetches_app; cbn;
        auto; lia.
    + rewrite (retryLoop_status _ _ _ _ _ _ _ _ _ _ E). cbn zeta. rewrite Ha.
      destruct (StatusCode r =? 200); [|destruct (rejected (StatusCode r))].
      * apply Hone; cbn [snd after trace clock]; rewrite ?fetches_app; auto.
      * apply Hone; cbn [snd after trace clock]; rewrite ?fetches_app; auto.
      * apply Hmore; cbn [after trace clock]; rewrite ?fetches_app; cbn;
          auto; lia.
Qed.

(** The attempts of a validation, with the times they start at, and the
    time the validation ends. *)
Lemma validation_schedule w url t :
  request_error w (TrimSpace url) = None ->
  exists n,
    (1 <= n <= 3)%nat
    /\ fetches (trace_of w url t)
       = schedule w (TrimSpace url) (t + timeoutSeconds) 1 1 t n
    /\ end_of w url t
       = t + sumZ (map (fun k => elapsed (net w (TrimSpace url) k)) (numbered 1 n))
           + sumZ (backoffs 1 (n - 1)).
Proof.
  intros Hreq. unfold trace_of, end_of, run. rewrite validateFeed_eq. cbn zeta.
  rewrite Hreq.
  set (s := {| clock := t; trace := [] |}).
  set (req := mkRequest (TrimSpace url) (clock s + timeoutSeconds)).
  change (Z.to_nat maxRetries) with 3%nat.
  destruct (retryLoop_schedule w (TrimSpace url) req 2 1 1 None None s eq_refl)
    as (n & Hn & Hf & Hc).
  exists n. split; [exact Hn|].
  destruct (retryLoop _ _ _ _ _ _ _ _ _) as [[r|resp err] s1];
    cbn [snd] in *; [auto|].
  rewrite afterLoop_trace, afterLoop_clock, fetches_app, Hf, Hc.
  split; [|reflexivity]. cbn [fetches filter trace s app].
  replace (fetches _) with (@nil Event); [apply app_nil_r|].
  destruct err; [reflexivity|]. destruct resp as [r|]; [|reflexivity].
  destruct (_ =? 200); [|reflexivity]. destruct (Body r); reflexivity.
Qed.

(** X21: when the client honours the deadline of the request, a validation
    is over within 33 seconds of its start: the 30 seconds of the one
    deadline all its attempts share, and the 3 seconds of its back-off
    sleeps. *)
Theorem validation_ends_within_33_seconds w url t :
  honoured w (TrimSpace url) (trace_of w url t) ->
  t <= end_of w url t <= t + timeoutSeconds + 3.
Proof.
  intros Hh.
  destruct (request_error w (TrimSpace url)) as [e|] eqn:Hreq.
  { unfold end_of. rewrite (malformed_run w url t e Hreq). cbn.
    unfold timeoutSeconds. lia. }
  destruct (validation_schedule w url t Hreq) as (n & Hn & Hf & ->).
  assert (Hdo : forall a start d,
            In (EvDo a start d)
               (schedule w (TrimSpace url) (t + timeoutSeconds) 1 1 t n) ->
            0 <= elapsed (net w (TrimSpace url) a) <= Z.max 0 (d - start)).
  { intros a start d Hin. apply Hh. rewrite <- Hf in Hin.
    apply filter_In in Hin. apply Hin. }
  unfold timeoutSeconds in *.
  assert (Hcases : n = 1%nat \/ n = 2%nat \/ n = 3%nat) by lia.
  destruct Hcases as [-> | [-> | ->]]; cbn in Hdo |- *.
  - pose proof (Hdo _ _ _ (or_introl eq_refl)). lia.
  - pose proof (Hdo _ _ _ (or_introl eq_refl)).
    pose proof (Hdo _ _ _ (or_intror (or_introl eq_refl))). lia.
  - pose proof (Hdo _ _ _ (or_introl eq_refl)).
    pose proof (Hdo _ _ _ (or_intror (or_introl eq_refl))).
    pose proof (Hdo _ _ _ (or_intror (or_intror (or_introl eq_refl)))). lia.
Qed.

Lemma validation_ends_within_33_seconds_witness :
  Sample.noon <= end_of Sample.world "http://slow.example/rss" Sample.noon
  <= Sample.noon + timeoutSeconds + 3.
Proof.
  apply (validation_ends_within_33_seconds Sample.world
           "http://slow.example/rss" Sample.noon).
  intros a start d Hin. simpl in Hin.
  destruct Hin as [H|[H|[H|[H|[H|[]]]]]]; try discriminate H;
    injection H as <- <- <-; vm_compute; split; discriminate.
Defined.

(** X22: all attempts of a validation run under one deadline, 30 seconds
    after the validation is entered; when no exchange takes negative time,
    every attempt after the first starts with less than 30 seconds left. *)
Theorem attempts_share_one_deadline w url t a start d :
  (forall u k, 0 <= elapsed (net w u k)) ->
  In (EvDo a start d) (trace_of w url t) ->
  d = t + timeoutSeconds
  /\ t <= start
  /\ (a <> 1 -> d - start < timeoutSeconds).
Proof.
  intros Hel Hin.
  destruct (retry_budget_is_consumed w url t a start d Hel Hin) as [Hd Hlate].
  split; [exact Hd|]. split; [|exact Hlate].
  destruct (Z.eq_dec a 1) as [->|Ha]; [|specialize (Hlate Ha); lia].
  destruct (request_error w (TrimSpace url)) as [e|] eqn:Hreq.
  { unfold trace_of in Hin. rewrite (malformed_run w url t e Hreq) in Hin.
    destruct Hin. }
  destruct (validation_schedule w url t Hreq) as (n & Hn & Hf & _).
  assert (Hin' : In (EvDo 1 start d) (fetches (trace_of w url t))).
  { apply filter_In. auto. }
  rewrite Hf in Hin'.
  assert (Hlater : forall m b s0 a0,
            1 < a0 -> ~ In (EvDo 1 start d)
                        (schedule w (TrimSpace url) (t + timeoutSeconds) a0 b s0 m)).
  { induction m as [|m IH]; intros b s0 a0 Ha0 H; [exact H|].
    cbn in H. destruct H as [H|H]; [injection H as H _ _; lia|].
    eapply IH; [|exact H]. lia. }
  destruct n as [|n]; [lia|]. cbn in Hin'. destruct Hin' as [H|H].
  - injection H as <- _. lia.
  - exfalso. eapply Hlater; [|exact H]. lia.
Qed.

Lemma attempts_share_one_deadline_witness :
  Sample.noon + 30 = Sample.noon + timeoutSeconds
  /\ Sample.noon <= Sample.noon + 2
  /\ (2 <> 1 -> Sample.noon + 30 - (Sample.noon + 2) < timeoutSeconds).
Proof.
  apply (attempts_share_one_deadline Sample.world "http://down.example/rss"
           Sample.noon 2 (Sample.noon + 2) (Sample.noon + 30)).
  - intros u k. simpl.
    repeat match goal with
           | |- context [if ?c then _ else _] => destruct c
           end; simpl; lia.
  - simpl. right. right. right. left. reflexivity.
Defined.

Lemma classify_messages url feed s :
  0 <= ItemCount (fst (classify url feed s))
  /\ (Message (fst (classify url feed s)) = EmptyString
      \/ Message (fst (classify url feed s)) = "Warning: No feed items"
      \/ Message (fst (classify url feed s))
         = "Warning: Feed hasn't been updated in over 6 months").
Proof.
  unfold classify, bind, time_Now, ret.
  destruct (_ =? 0); [cbn; split; [lia|auto]|].
  destruct (GoTime.Before _ _); cbn; split; auto; lia.
Qed.

(** X23: every result carries the trimmed URL and one of the three
    statuses; a valid result has a count that is not negative and one of
    three messages, the empty one or one of the two warnings. *)
Theorem results_are_well_formed w url t :
  URL (result_of w url t) = TrimSpace url
  /\ ((Status (result_of w url t) = "valid"
       /\ 0 <= ItemCount (result_of w url t)
       /\ (Message (result_of w url t) = EmptyString
           \/ Message (result_of w url t) = "Warning: No feed items"
           \/ Message (result_of w url t)
              = "Warning: Feed hasn't been updated in over 6 months"))
      \/ Status (result_of w url t) = "invalid"
      \/ Status (result_of w url t) = "transient").
Proof.
  destruct (result_of_URL w url t) as [Hu _]. split; [exact Hu|].
  destruct (request_error w (TrimSpace url)) as [e|] eqn:Hreq.
  { right. left. unfold result_of. rewrite (malformed_run w url t e Hreq).
    reflexivity. }
  destruct (loop_cases w (TrimSpace url)) as [(k & r & Hf)|[(k & r & Hr)|Hx]].
  - destruct (fetched_status w url t k r Hreq Hf) as [Hst _].
    destruct (Body r) as [e|body] eqn:Hb; [auto|].
    destruct (decode w body) as [pe|feed] eqn:Hd; [auto|].
    left. split; [exact Hst|].
    destruct (decoded_result w url t k r body feed Hreq Hf Hb Hd)
      as (s2 & -> & _).
    apply classify_messages.
  - right. left. destruct (rejected_status w url t k r Hreq Hr) as [-> _].
    reflexivity.
  - right. right. apply (exhausted_status w url t Hreq Hx).
Qed.
